(** * The batching pipeline of the M4T finetuning data loader

    A shallow embedding of
    [src/seamless_communication/cli/m4t/finetune/dataloader.py]:
    the containers [SeqsBatch] and [MultimodalSeqsBatch], the configuration
    [BatchingConfig], [worker_init_fn], and the methods of [UnitYDataLoader]
    that turn a list of samples into one padded batch.

    Conventions.
    - A torch tensor is a shape together with its elements in row-major
      order ([Tensor]).  Float tensors hold IEEE values ([spec_float] of the
      standard library), token tensors hold integers ([Z]).
    - A Python exception is a value of [error]; a call that may raise returns
      [result A].  The two per-language encoder dictionaries of the loader are
      mutable: code that touches them lives in the state-and-error monad [M].
    - torchaudio, the filterbank converter, the tokenizers, the JSON decoding
      of a sample and numpy's seeding are collaborators outside the file; they
      are parameters of the development (the fields of [Library], the
      tokenizers of [UnitYDataLoader] and the variable of the section
      [Worker]). *)

From Stdlib Require Import ZArith List Bool Lia.
From Stdlib Require Import Floats.SpecFloat.
From stdpp Require Import base option list gmap strings.

Local Open Scope Z_scope.
Local Open Scope nat_scope.

(** ** Exceptions and fallible computations *)

Inductive error : Type :=
  | AssertionError
  | IndexError
  | ValueError
  | ZeroDivisionError
  | KeyError
  | RuntimeError
  | ExternalError (what : string).

Inductive result (A : Type) : Type :=
  | ok (a : A)
  | raise (e : error).
Arguments ok {A} a.
Arguments raise {A} e.

Definition rbind {A B} (m : result A) (k : A → result B) : result B :=
  match m with
  | raise e => raise e
  | ok a => k a
  end.

Declare Scope result_scope.
Delimit Scope result_scope with R.
Notation "x <- m ;; k" := (rbind m (fun x => k))
  (at level 100, m at next level, right associativity) : result_scope.

(** A list comprehension whose body may raise: the elements are evaluated
    from left to right and the first exception ends the comprehension. *)
Fixpoint mapR {A B} (f : A → result B) (l : list A) : result (list B) :=
  match l with
  | [] => ok []
  | a :: l' =>
      (b <- f a ;; bs <- mapR f l' ;; ok (b :: bs))%R
  end.

(** [[x for x in l if not p(x)]] with a fallible test. *)
Fixpoint filter_notR {A} (p : A → result bool) (l : list A) : result (list A) :=
  match l with
  | [] => ok []
  | a :: l' =>
      (skip <- p a ;; rest <- filter_notR p l' ;;
       ok (if skip then rest else a :: rest))%R
  end.

(** Python's [assert]. *)
Definition py_assert (b : bool) : result unit :=
  if b then ok tt else raise AssertionError.

(** Python's [max] over a sequence of non-negative integers. *)
Definition py_max (l : list nat) : result nat :=
  match l with
  | [] => raise ValueError
  | x :: l' => ok (foldl Nat.max x l')
  end.

(** [l[0]]. *)
Definition py_first {A} (l : list A) : result A :=
  match l with
  | [] => raise IndexError
  | a :: _ => ok a
  end.

(** ** Tensors *)

Record Tensor (A : Type) : Type := mkTensor {
  shape : list nat;
  data : list A
}.
Arguments mkTensor {A} _ _.
Arguments shape {A} _.
Arguments data {A} _.

Definition numel (s : list nat) : nat := foldr Nat.mul 1 s.

(** Every tensor torch hands out has as many elements as its shape says. *)
Definition wf_tensor {A} (t : Tensor A) : Prop :=
  length (data t) = numel (shape t).

(** A one-dimensional tensor, [torch.LongTensor(l)]. *)
Definition tensor1 {A} (l : list A) : Tensor A := mkTensor [length l] l.

(** [t.shape[0]]. *)
Definition shape0 {A} (t : Tensor A) : result nat := py_first (shape t).

(** [torch.nn.functional.pad(t, [0] * (2 * dims - 1) + [p], "constant", v)].
    The padding list names the dimensions from the last one backwards, so
    its final entry is the right-hand padding of dimension [ndim - dims].
    [_batch_tensors] computes [dims] from the first tensor of the list.  For a
    tensor of that rank the padded dimension is the leading one: [p] slices
    filled with [v] are appended.  For a tensor of another rank either the
    call raises (rank below [dims]) or the [torch.stack] that follows rejects
    the ranks, a [RuntimeError] in both cases. *)
Definition pad_tensor {A} (dims p : nat) (v : A) (t : Tensor A)
  : result (Tensor A) :=
  match shape t with
  | n :: rest =>
      if length (shape t) =? dims
      then ok (mkTensor (n + p :: rest) (data t ++ replicate (p * numel rest) v))
      else raise RuntimeError
  | [] => raise RuntimeError
  end.

Definition shape_eqb (s1 s2 : list nat) : bool := bool_decide (s1 = s2).

(** [torch.stack(ts, dim=0)]: all shapes must agree. *)
Definition torch_stack {A} (ts : list (Tensor A)) : result (Tensor A) :=
  match ts with
  | [] => raise RuntimeError
  | t :: _ =>
      if forallb (fun t' => shape_eqb (shape t') (shape t)) ts
      then ok (mkTensor (length ts :: shape t) (concat (map data ts)))
      else raise RuntimeError
  end.

(** [t[i]], the [i]-th slice along the leading dimension. *)
Definition row {A} (i : nat) (t : Tensor A) : Tensor A :=
  let rest := tail (shape t) in
  mkTensor rest (take (numel rest) (drop (i * numel rest) (data t))).

(** [UnitYDataLoader._batch_tensors] *)
Definition _batch_tensors {A} (tensors : list (Tensor A)) (pad_value : A)
  : result (Tensor A) :=
  (sizes <- mapR shape0 tensors ;;
   padding_size <- py_max sizes ;;
   first <- py_first tensors ;;
   let dims := length (shape first) in
   padded_tensors <-
     mapR (fun tensor =>
             n <- shape0 tensor ;;
             pad_tensor dims (padding_size - n) pad_value tensor) tensors ;;
   torch_stack padded_tensors)%R.

(** Slices along the leading dimension: [t[:-1]] and [t[1:]]. *)
Definition drop_last {A} (t : Tensor A) : result (Tensor A) :=
  match shape t with
  | n :: rest => ok (mkTensor (n - 1 :: rest) (take ((n - 1) * numel rest) (data t)))
  | [] => raise IndexError
  end.

Definition drop_first {A} (t : Tensor A) : result (Tensor A) :=
  match shape t with
  | n :: rest => ok (mkTensor (n - 1 :: rest) (drop (numel rest) (data t)))
  | [] => raise IndexError
  end.

(** [t.unsqueeze(-1)] *)
Definition unsqueeze_last {A} (t : Tensor A) : Tensor A :=
  mkTensor (shape t ++ [1]) (data t).

(** [t.transpose(0, 1)]: slice [(j, i)] of the result is slice [(i, j)] of
    the argument. *)
Definition transpose01 {A} (t : Tensor A) : Tensor A :=
  match shape t with
  | r :: c :: rest =>
      mkTensor (c :: r :: rest)
        (j ← seq 0 c; i ← seq 0 r;
         take (numel rest) (drop ((i * c + j) * numel rest) (data t)))
  | _ => t
  end.

(** ** Floating-point values *)

Inductive dtype : Type := float16 | bfloat16 | float32 | float64.

Definition prec_of (dt : dtype) : Z :=
  match dt with
  | float16 => 11 | bfloat16 => 8 | float32 => 24 | float64 => 53
  end%Z.

Definition emax_of (dt : dtype) : Z :=
  match dt with
  | float16 => 16 | bfloat16 => 128 | float32 => 128 | float64 => 1024
  end%Z.

(** An integer as a float of the given type (round to nearest even). *)
Definition float_of_int (dt : dtype) (z : Z) : spec_float :=
  binary_normalize (prec_of dt) (emax_of dt) z 0 false.

(** Conversion of a float to the given type. *)
Definition cast_float (dt : dtype) (x : spec_float) : spec_float :=
  match x with
  | S754_finite s m e => binary_round (prec_of dt) (emax_of dt) s m e
  | _ => x
  end.

(** [t.to(dt)] *)
Definition tensor_to (dt : dtype) (t : Tensor spec_float) : Tensor spec_float :=
  mkTensor (shape t) (map (cast_float dt) (data t)).

Definition isnan (x : spec_float) : bool :=
  match x with
  | S754_nan => true
  | _ => false
  end.

Definition isfinite (x : spec_float) : bool :=
  match x with
  | S754_zero _ | S754_finite _ _ _ => true
  | S754_infinity _ | S754_nan => false
  end.

(** [t.isnan().any().item()] *)
Definition any_isnan (t : Tensor spec_float) : bool := existsb isnan (data t).

(** Does the tensor hold a value that is not finite (a NaN or an infinity)? *)
Definition any_nonfinite (t : Tensor spec_float) : bool :=
  existsb (fun x => negb (isfinite x)) (data t).

(** Python's [a / b] on integers, a binary64 float.  (Python rounds the
    exact quotient once; the operands are converted first here, which is the
    same value whenever both are below 2^53 in magnitude.) *)
Definition py_truediv (a b : Z) : result spec_float :=
  if (b =? 0)%Z then raise ZeroDivisionError
  else ok (SFdiv 53 1024 (float_of_int float64 a) (float_of_int float64 b)).

(** Python's [x > y] on floats. *)
Definition py_float_gt (x y : spec_float) : bool := SFltb y x.

(** ** Containers and configuration *)

Record SeqsBatch : Type := mkSeqsBatch {
  src_tokens : option (Tensor spec_float);
  src_lengths : option (Tensor Z);
  target_tokens : option (Tensor Z);
  prev_output_tokens : option (Tensor Z);
  target_lengths : option (Tensor Z)
}.

Record MultimodalSeqsBatch : Type := mkMultimodalSeqsBatch {
  speech_to_text : SeqsBatch;
  text_to_units : SeqsBatch
}.

Record BatchingConfig : Type := mkBatchingConfig {
  fbank_feats_pad_idx : Z;
  batch_size : Z;
  max_audio_length_sec : spec_float;
  rank : Z;
  world_size : Z;
  num_workers : Z;
  float_dtype : dtype
}.

(** A sample of the manifest ([seamless_communication.datasets.datatypes]). *)
Record MultimodalSample : Type := mkMultimodalSample {
  lang : string;
  audio_local_path : string;
  text : string;
  units : option (list Z)
}.

Record LangPairSample : Type := mkLangPairSample {
  source : MultimodalSample;
  target : MultimodalSample
}.

(** ** Per-worker seeding *)

(** The tuple of [np.random.get_state()] after its name: the key words of the
    generator, its position and the cached Gaussian. *)
Record NpRandomState : Type := mkNpRandomState {
  mt_key : list Z;
  mt_pos : Z;
  has_gauss : Z;
  cached_gaussian : spec_float
}.

Section Worker.
(** [np.random.seed], which rejects a seed outside [0, 2^32). *)
Variable np_random_seed : Z → result NpRandomState.

(** The seed a worker computes, [np.random.get_state()[1][0] + worker_id].
    The key word is an unsigned 32-bit scalar and the worker index a Python
    integer: the sum is formed in a wider integer type and does not wrap. *)
Definition worker_seed (st : NpRandomState) (worker_id : Z) : result Z :=
  (k0 <- py_first (mt_key st) ;; ok (k0 + worker_id)%Z)%R.

Definition worker_init_fn (st : NpRandomState) (worker_id : Z)
  : result NpRandomState :=
  (seed <- worker_seed st worker_id ;; np_random_seed seed)%R.
End Worker.

(** ** Collaborators of the loader *)

Record VocabInfo : Type := mkVocabInfo {
  eos_idx : Z;
  pad_idx : Z
}.

(** A text encoder maps a sentence to a one-dimensional tensor of token
    indices; a unit encoder maps one row of unit indices to one row of token
    indices (it is called on a batch of one row, see [_get_tokenized_units]). *)
Definition TextTokenEncoder : Type := string → result (list Z).
Definition UnitTokenEncoder : Type := list Z → result (list Z).

Record NllbTokenizer : Type := mkNllbTokenizer {
  text_create_encoder : string → string → result TextTokenEncoder;
  text_vocab_info : VocabInfo
}.

Record UnitTokenizer : Type := mkUnitTokenizer {
  unit_create_encoder : string → result UnitTokenEncoder;
  unit_vocab_info : VocabInfo
}.

(** The keyword arguments of [WaveformToFbankConverter]. *)
Record FbankParams : Type := mkFbankParams {
  num_mel_bins : Z;
  waveform_scale : Z;
  channel_last : bool;
  standardize : bool;
  fbank_dtype : dtype
}.

(** What the loader calls outside the file: the decoding of a manifest record,
    [torchaudio.load] (the waveform and its sample rate) and the filterbank
    converter applied to a waveform and a sample rate. *)
Record Library : Type := mkLibrary {
  Raw : Type;
  from_json : Raw → result LangPairSample;
  torchaudio_load : string → result (Tensor spec_float * Z);
  WaveformToFbankConverter :
    FbankParams → Tensor spec_float → Z → result (Tensor spec_float)
}.

(** The fields of a [UnitYDataLoader] that are set once, and the two encoder
    dictionaries, which grow while batches are prepared. *)
Record UnitYDataLoader : Type := mkUnitYDataLoader {
  text_tokenizer : NllbTokenizer;
  unit_tokenizer : UnitTokenizer;
  batching_config : BatchingConfig
}.

Record Caches : Type := mkCaches {
  text_encoders_per_lang : gmap string TextTokenEncoder;
  unit_encoders_per_lang : gmap string UnitTokenEncoder
}.

(** ** The state-and-error monad of the loader *)

Definition M (A : Type) : Type := Caches → result (A * Caches).

Definition mretM {A} (a : A) : M A := fun σ => ok (a, σ).

Definition mbindM {A B} (m : M A) (k : A → M B) : M B :=
  fun σ =>
    match m σ with
    | raise e => raise e
    | ok (a, σ') => k a σ'
    end.

Definition liftR {A} (r : result A) : M A :=
  fun σ =>
    match r with
    | raise e => raise e
    | ok a => ok (a, σ)
    end.

Declare Scope loader_scope.
Delimit Scope loader_scope with M.
Notation "x <- m ;; k" := (mbindM m (fun x => k))
  (at level 100, m at next level, right associativity) : loader_scope.

Fixpoint mapM {A B} (f : A → M B) (l : list A) : M (list B) :=
  match l with
  | [] => mretM []
  | a :: l' => (b <- f a ;; bs <- mapM f l' ;; mretM (b :: bs))%M
  end.

(** [[x for x, skip in zip(xs, flags) if not skip]] *)
Definition zip_filter_not {A} (xs : list A) (flags : list bool) : list A :=
  (filter (fun p => negb p.2) (zip xs flags)).*1.

Definition is_None {A} (o : option A) : bool :=
  match o with
  | None => true
  | Some _ => false
  end.

(** ** The loader *)

Section Loader.
Variable lib : Library.
Variable self : UnitYDataLoader.

Definition SAMPLE_RATE : Z := 16000.

Definition _fbank_extract_params : FbankParams :=
  {| num_mel_bins := 80;
     waveform_scale := 32768;
     channel_last := true;
     standardize := true;
     fbank_dtype := float_dtype (batching_config self) |}.

(** The layout normalisation of [_get_source_fbank] (lines 145 to 149): the
    assertion on the rank of the waveform and the two branches that follow
    it. *)
Definition channel_layout (wav : Tensor spec_float)
  : result (Tensor spec_float) :=
  (_ <- py_assert ((length (shape wav) =? 1) || (length (shape wav) =? 2)) ;;
   if length (shape wav) =? 1 then ok (unsqueeze_last wav)
   else
     n0 <- shape0 wav ;;
     if n0 <=? 2 then ok (transpose01 wav) else ok wav)%R.

Definition _get_source_fbank (sample : LangPairSample)
  : result (Tensor spec_float) :=
  (loaded <- torchaudio_load lib (audio_local_path (source sample)) ;;
   let wav := loaded.1 in
   let sample_rate := loaded.2 in
   _ <- py_assert (sample_rate =? SAMPLE_RATE)%Z ;;
   wav <- channel_layout wav ;;
   WaveformToFbankConverter lib _fbank_extract_params wav SAMPLE_RATE)%R.

Definition _get_tokenized_target_text (sample : LangPairSample)
  : M (Tensor Z) :=
  fun σ =>
    let target_lang := lang (target sample) in
    (σ1 <-
       match text_encoders_per_lang σ !! target_lang with
       | None =>
           enc <- text_create_encoder (text_tokenizer self) target_lang "target" ;;
           ok (mkCaches (<[target_lang := enc]> (text_encoders_per_lang σ))
                        (unit_encoders_per_lang σ))
       | Some _ => ok σ
       end ;;
     match text_encoders_per_lang σ1 !! target_lang with
     | None => raise KeyError
     | Some encoder =>
         tokens <- encoder (text (target sample)) ;;
         let eos_idx := eos_idx (text_vocab_info (text_tokenizer self)) in
         ok (tensor1 (tokens ++ [eos_idx]), σ1)
     end)%R.

Definition _get_tokenized_units (sample : LangPairSample)
  : M (option (Tensor Z)) :=
  fun σ =>
    match units (target sample) with
    | None => ok (None, σ)
    | Some sample_units =>
        let target_lang := lang (target sample) in
        (σ1 <-
           match unit_encoders_per_lang σ !! target_lang with
           | None =>
               enc <- unit_create_encoder (unit_tokenizer self) target_lang ;;
               ok (mkCaches (text_encoders_per_lang σ)
                            (<[target_lang := enc]> (unit_encoders_per_lang σ)))
           | Some _ => ok σ
           end ;;
         match unit_encoders_per_lang σ1 !! target_lang with
         | None => raise KeyError
         | Some encoder =>
             tokens <- encoder sample_units ;;
             let eos_idx := eos_idx (unit_vocab_info (unit_tokenizer self)) in
             ok (Some (tensor1 (tokens ++ [eos_idx])), σ1)
         end)%R
    end.

Definition _is_long_src_audio (sample : LangPairSample) : result bool :=
  (loaded <- torchaudio_load lib (audio_local_path (source sample)) ;;
   let wav := loaded.1 in
   let sample_rate := loaded.2 in
   longest <- py_max (shape wav) ;;
   length_s <- py_truediv (Z.of_nat longest) sample_rate ;;
   ok (py_float_gt length_s (max_audio_length_sec (batching_config self))))%R.

(** The first stage of [_prepare_batch] (lines 205 and 206): the samples that
    are not too long, or the first sample when all of them are. *)
Definition filter_long_audio (samples : list LangPairSample)
  : result (list LangPairSample) :=
  (filtered_samples <- filter_notR _is_long_src_audio samples ;;
   match filtered_samples with
   | [] => s0 <- py_first samples ;; ok [s0]
   | _ => ok filtered_samples
   end)%R.

(** The second stage (lines 207 to 214): the features of the samples, and the
    samples and features that are left once those with a NaN are skipped. *)
Definition filter_nans (samples : list LangPairSample)
  : result (list LangPairSample * list (Tensor spec_float)) :=
  (src_tokens_list <- mapR _get_source_fbank samples ;;
   let with_nans := map any_isnan src_tokens_list in
   let samples := zip_filter_not samples with_nans in
   _ <- py_assert (0 <? length samples) ;;
   let src_tokens_list := zip_filter_not src_tokens_list with_nans in
   ok (samples, src_tokens_list))%R.

(** Both shifted views of a list of token sequences and their lengths: the
    three statements that [_prepare_batch] runs on the text tokens (lines 226
    to 234) and again on the unit tokens (lines 248 to 256). *)
Definition shifted_views (tokens_list : list (Tensor Z)) (pad : Z)
  : result (Tensor Z * Tensor Z * Tensor Z) :=
  (prevs <- mapR drop_last tokens_list ;;
   prev_outputs <- _batch_tensors prevs pad ;;
   nexts <- mapR drop_first tokens_list ;;
   targets <- _batch_tensors nexts pad ;;
   sizes <- mapR shape0 tokens_list ;;
   let lengths := tensor1 (map (fun n => (Z.of_nat n - 1)%Z) sizes) in
   ok (prev_outputs, targets, lengths))%R.

Definition _prepare_batch (raw_samples : list (Raw lib))
  : M MultimodalSeqsBatch :=
  (samples <- liftR (mapR (from_json lib) raw_samples) ;;
   (* input speech *)
   samples <- liftR (filter_long_audio samples) ;;
   kept <- liftR (filter_nans samples) ;;
   let samples := kept.1 in
   let src_tokens_list := kept.2 in
   let cfg := batching_config self in
   src_tokens <-
     liftR (_batch_tensors src_tokens_list
              (float_of_int (float_dtype cfg) (fbank_feats_pad_idx cfg))) ;;
   let src_tokens := tensor_to (float_dtype cfg) src_tokens in
   sizes <- liftR (mapR shape0 src_tokens_list) ;;
   let src_lengths := tensor1 (map Z.of_nat sizes) in
   (* output text *)
   text_tokens_list <- mapM _get_tokenized_target_text samples ;;
   let text_pad_idx := pad_idx (text_vocab_info (text_tokenizer self)) in
   text_views <- liftR (shifted_views text_tokens_list text_pad_idx) ;;
   let prev_outputs_tokens := text_views.1.1 in
   let target_tokens := text_views.1.2 in
   let tokens_lengths := text_views.2 in
   (* output units *)
   units_list_raw <- mapM _get_tokenized_units samples ;;
   unit_views <-
     (if existsb is_None units_list_raw then mretM None
      else
        let units_list := omap id units_list_raw in
        let units_pad_idx := pad_idx (unit_vocab_info (unit_tokenizer self)) in
        views <- liftR (shifted_views units_list units_pad_idx) ;;
        mretM (Some views)) ;;
   mretM
     {| speech_to_text :=
          {| src_tokens := Some src_tokens;
             src_lengths := Some src_lengths;
             target_tokens := Some target_tokens;
             prev_output_tokens := Some prev_outputs_tokens;
             target_lengths := Some tokens_lengths |};
        text_to_units :=
          {| src_tokens := None;
             src_lengths := None;
             target_tokens := (fun v => v.1.2) <$> unit_views;
             prev_output_tokens := (fun v => v.1.1) <$> unit_views;
             target_lengths := (fun v => v.2) <$> unit_views |} |})%M.
End Loader.

(** The samples and feature matrices a collate call keeps: the record
    decoding and the two filters that open [_prepare_batch]. *)
Definition surviving (lib : Library) (self : UnitYDataLoader)
    (raw_samples : list (Raw lib))
  : result (list LangPairSample * list (Tensor spec_float)) :=
  (samples <- mapR (from_json lib) raw_samples ;;
   samples <- filter_long_audio lib self samples ;;
   filter_nans lib self samples)%R.

(** [t.shape[0]] as an option, for statements about batch dimensions. *)
Definition batch_dim {A} (t : Tensor A) : option nat := head (shape t).

(** [m] is the largest entry of [l]. *)
Definition is_max_of (m : Z) (l : list Z) : Prop :=
  m ∈ l ∧ Forall (fun x => (x <= m)%Z) l.

(** The elements of [t] once it is padded with [v] to [L] slices. *)
Definition padded_data {A} (L : nat) (v : A) (t : Tensor A) : list A :=
  data t ++
  replicate ((L - default 0 (head (shape t))) * numel (tail (shape t))) v.

(** The views of one token sequence [S] in a batch: row [i] of [prev] is [S]
    without its last element and row [i] of [tgt] is [S] without its first
    element, both followed by padding only, and entry [i] of [lens] is the
    length of [S] minus one. *)
Definition shifted_row (S : list Z) (pad : Z) (i : nat)
    (prev tgt lens : Tensor Z) : Prop :=
  let n := length S in
  (∃ k, data (row i prev) = take (n - 1) S ++ replicate k pad ∧
        data (row i tgt) = drop 1 S ++ replicate k pad) ∧
  (∀ j, j + 2 ≤ n →
        data (row i prev) !! j = S !! j ∧
        data (row i tgt) !! j = S !! (j + 1)) ∧
  data lens !! i = Some (Z.of_nat n - 1)%Z.

(** Entry [i] of [lens] is the leading length of the [i]-th tensor of [seqs]
    minus [delta]. *)
Definition lengths_of {A} (seqs : list (Tensor A)) (delta : Z)
    (lens : Tensor Z) : Prop :=
  ∀ i t, seqs !! i = Some t →
         ∃ n, shape0 t = ok n ∧ data lens !! i = Some (Z.of_nat n - delta)%Z.

(** The sequence dimension of the batch [t] is the largest entry of [lens]. *)
Definition seq_dim_is_max {A} (t : Tensor A) (lens : Tensor Z) : Prop :=
  ∃ L, shape t !! 1 = Some L ∧ is_max_of (Z.of_nat L) (data lens).

(** The source tokens of the batch [b] are assembled from feature matrices
    that hold no value flagged by [bad]: the samples kept by the collate call
    all have such a matrix, a sample whose matrix holds a flagged value is
    not among them, and row [i] of the source tokens is the [i]-th of these
    matrices, padded and converted to the float type of the configuration. *)
Definition sources_free_of (bad : spec_float → bool) (lib : Library)
    (self : UnitYDataLoader) (raw_samples : list (Raw lib))
    (b : MultimodalSeqsBatch) : Prop :=
  let cfg := batching_config self in
  ∃ kept fbs padded,
    surviving lib self raw_samples = ok (kept, fbs) ∧
    Forall2 (fun s m => _get_source_fbank lib self s = ok m ∧
                        existsb bad (data m) = false) kept fbs ∧
    (∀ s m, _get_source_fbank lib self s = ok m →
            existsb bad (data m) = true → s ∉ kept) ∧
    _batch_tensors fbs
      (float_of_int (float_dtype cfg) (fbank_feats_pad_idx cfg)) = ok padded ∧
    src_tokens (speech_to_text b) = Some (tensor_to (float_dtype cfg) padded) ∧
    (Forall wf_tensor fbs →
     ∀ i m, fbs !! i = Some m →
       ∃ k, data (row i (tensor_to (float_dtype cfg) padded)) =
            map (cast_float (float_dtype cfg))
              (data m ++
               replicate k
                 (float_of_int (float_dtype cfg) (fbank_feats_pad_idx cfg)))).

(** ** The two loaders of [finetune.py] *)

(** The defaults of the dataclass [BatchingConfig]. *)
Definition BatchingConfig_defaults : BatchingConfig :=
  {| fbank_feats_pad_idx := 0;
     batch_size := 2;
     max_audio_length_sec := float_of_int float64 15;
     rank := 0;
     world_size := 1;
     num_workers := 2;
     float_dtype := float16 |}.

(** [main]: the float type of the finetuning parameters, from the type of the
    device ([torch.float16 if device.type != "cpu" else torch.bfloat16]). *)
Definition finetune_float_dtype (device_type : string) : dtype :=
  if negb (String.eqb device_type "cpu") then float16 else bfloat16.

(** The [BatchingConfig] that [main] builds for a loader: batch size, rank,
    world size, duration limit and float type are passed, the other fields
    keep their defaults. *)
Definition main_batching_config (size node_rank nodes : Z)
    (limit : spec_float) (device_type : string) : BatchingConfig :=
  {| fbank_feats_pad_idx := fbank_feats_pad_idx BatchingConfig_defaults;
     batch_size := size;
     max_audio_length_sec := limit;
     rank := node_rank;
     world_size := nodes;
     num_workers := num_workers BatchingConfig_defaults;
     float_dtype := finetune_float_dtype device_type |}.

(** The training loader and the evaluation loader of [main]: the same
    tokenizers and batch size, a limit of 15 and of 100 seconds. *)
Definition train_dataloader (tt : NllbTokenizer) (ut : UnitTokenizer)
    (size node_rank nodes : Z) (device_type : string) : UnitYDataLoader :=
  {| text_tokenizer := tt;
     unit_tokenizer := ut;
     batching_config :=
       main_batching_config size node_rank nodes (float_of_int float64 15)
         device_type |}.

Definition eval_dataloader (tt : NllbTokenizer) (ut : UnitTokenizer)
    (size node_rank nodes : Z) (device_type : string) : UnitYDataLoader :=
  {| text_tokenizer := tt;
     unit_tokenizer := ut;
     batching_config :=
       main_batching_config size node_rank nodes (float_of_int float64 100)
         device_type |}.

(** ** A small loader to run the definitions on

    Six audio files of a few frames each, a converter that copies the first
    channel of every frame into each mel bin, and tokenizers that map
    characters and units to indices.  The duration limit is six frames at
    16 kHz. *)
Module Demo.
Definition f32 (z : Z) : spec_float := float_of_int float32 z.

Definition files (path : string) : result (Tensor spec_float * Z) :=
  if String.eqb path "a.wav" then
    ok (mkTensor [1; 4] [f32 1; f32 2; f32 3; f32 4], 16000%Z)
  else if String.eqb path "b.wav" then
    ok (mkTensor [1; 8] (replicate 8 (f32 1)), 16000%Z)
  else if String.eqb path "c.wav" then
    ok (mkTensor [1; 2] [S754_nan; S754_nan], 16000%Z)
  else if String.eqb path "inf.wav" then
    ok (mkTensor [1; 3] [f32 1; S754_infinity false; f32 2], 16000%Z)
  else if String.eqb path "wide.wav" then
    ok (mkTensor [3; 2] [f32 1; f32 2; f32 3; f32 4; f32 5; f32 6], 16000%Z)
  else if String.eqb path "mono.wav" then
    ok (mkTensor [5] [f32 1; f32 2; f32 3; f32 4; f32 5], 16000%Z)
  else raise (ExternalError "no such file").

Definition fbank (params : FbankParams) (wav : Tensor spec_float)
    (sample_rate : Z) : result (Tensor spec_float) :=
  match shape wav with
  | [frames; channels] =>
      let bins := Z.to_nat (num_mel_bins params) in
      ok (mkTensor [frames; bins]
            (t ← seq 0 frames;
             replicate bins
               (cast_float (fbank_dtype params)
                  (default S754_nan (data wav !! (t * channels))))))
  | _ => raise (ExternalError "waveform must have two dimensions")
  end.

Definition lib : Library :=
  {| Raw := LangPairSample;
     from_json := ok;
     torchaudio_load := files;
     WaveformToFbankConverter := fbank |}.

Definition text_encoder (lang : string) : TextTokenEncoder :=
  fun sentence =>
    ok (3%Z :: (256000 + Z.of_nat (String.length lang))%Z ::
        map (fun a => Z.of_nat (Ascii.nat_of_ascii a))
            (String.list_ascii_of_string sentence)).

Definition unit_encoder (lang : string) : UnitTokenEncoder :=
  fun unit_ids =>
    ok (2%Z :: (10000 + Z.of_nat (String.length lang))%Z ::
        map (fun u => (u + 4)%Z) unit_ids).

Definition self : UnitYDataLoader :=
  {| text_tokenizer :=
       {| text_create_encoder := fun lang _ => ok (text_encoder lang);
          text_vocab_info := {| eos_idx := 3; pad_idx := 0 |} |};
     unit_tokenizer :=
       {| unit_create_encoder := fun lang => ok (unit_encoder lang);
          unit_vocab_info := {| eos_idx := 2; pad_idx := 1 |} |};
     batching_config :=
       {| fbank_feats_pad_idx := 0;
          batch_size := 3;
          max_audio_length_sec :=
            SFdiv 53 1024 (float_of_int float64 6) (float_of_int float64 16000);
          rank := 0;
          world_size := 1;
          num_workers := 2;
          float_dtype := float16 |} |}.

Definition sample (path sentence : string) (unit_ids : option (list Z))
  : LangPairSample :=
  {| source := {| lang := "eng"; audio_local_path := path;
                  text := ""; units := None |};
     target := {| lang := "fra"; audio_local_path := "";
                  text := sentence; units := unit_ids |} |}.

Definition sample_a := sample "a.wav" "hi" (Some [7; 8; 9; 10]%Z).
Definition sample_b := sample "b.wav" "long" (Some [5; 6]%Z).
Definition sample_c := sample "c.wav" "nan" (Some [4]%Z).
Definition sample_d := sample "a.wav" "abcd" (Some [1]%Z).
Definition sample_e := sample "a.wav" "no units" None.
Definition sample_inf := sample "inf.wav" "inf" None.
Definition sample_wide := sample "wide.wav" "wide" None.

Definition no_encoders : Caches := mkCaches ∅ ∅.

Definition seeded (k0 : Z) : NpRandomState :=
  {| mt_key := [k0; 17; 4]%Z; mt_pos := 624; has_gauss := 0;
     cached_gaussian := S754_zero false |}.

Definition np_seed (seed : Z) : result NpRandomState :=
  if ((0 <=? seed) && (seed <? 2 ^ 32))%Z then ok (seeded seed)
  else raise ValueError.
End Demo.

(** A second set of files for the small loader: a recording at 8 kHz. *)
Module DemoMore.
Definition files (path : string) : result (Tensor spec_float * Z) :=
  if String.eqb path "8k.wav" then
    ok (mkTensor [1; 2] [Demo.f32 1; Demo.f32 2], 8000%Z)
  else Demo.files path.

Definition lib : Library :=
  {| Raw := LangPairSample;
     from_json := ok;
     torchaudio_load := files;
     WaveformToFbankConverter := Demo.fbank |}.

(** The small loader with tokenizers that build no encoder. *)
Definition no_builder : UnitYDataLoader :=
  {| text_tokenizer :=
       {| text_create_encoder := fun _ _ => raise (ExternalError "no encoder");
          text_vocab_info := text_vocab_info (text_tokenizer Demo.self) |};
     unit_tokenizer :=
       {| unit_create_encoder := fun _ => raise (ExternalError "no encoder");
          unit_vocab_info := unit_vocab_info (unit_tokenizer Demo.self) |};
     batching_config := batching_config Demo.self |}.

Definition french_encoders : Caches :=
  mkCaches {[ "fra" := Demo.text_encoder "fra" ]}
           {[ "fra" := Demo.unit_encoder "fra" ]}.

Definition sample_8k := Demo.sample "8k.wav" "slow" None.
Definition sample_missing := Demo.sample "missing.wav" "gone" None.
End DemoMore.

(** * Properties *)

(** ** Inversion of fallible computations *)

Lemma rbind_ok_inv {A B} (m : result A) (k : A → result B) (b : B) :
  rbind m k = ok b → ∃ a, m = ok a ∧ k a = ok b.
Proof. destruct m as [a|e]; simpl; [eauto|discriminate]. Qed.

Lemma mbindM_ok_inv {A B} (m : M A) (k : A → M B) σ b σ' :
  mbindM m k σ = ok (b, σ') → ∃ a σ1, m σ = ok (a, σ1) ∧ k a σ1 = ok (b, σ').
Proof.
  unfold mbindM. destruct (m σ) as [[a σ1]|e]; [eauto|discriminate].
Qed.

Lemma liftR_ok_inv {A} (r : result A) σ a σ' :
  liftR r σ = ok (a, σ') → r = ok a ∧ σ' = σ.
Proof. unfold liftR. destruct r; intros H; inversion H; auto. Qed.

Lemma mretM_ok_inv {A} (a b : A) σ σ' :
  mretM a σ = ok (b, σ') → b = a ∧ σ' = σ.
Proof. unfold mretM. intros H; inversion H; auto. Qed.

Lemma py_assert_ok_inv (b : bool) (u : unit) : py_assert b = ok u → b = true.
Proof. destruct b; [reflexivity|discriminate]. Qed.

Ltac rinv H :=
  let a := fresh "a" in
  let Ha := fresh "E" in
  apply rbind_ok_inv in H as (a & Ha & H).

Ltac minv H :=
  let a := fresh "a" in
  let σ1 := fresh "σ" in
  let Ha := fresh "E" in
  apply mbindM_ok_inv in H as (a & σ1 & Ha & H).

Lemma mapR_ok_Forall2 {A B} (f : A → result B) (l : list A) (l' : list B) :
  mapR f l = ok l' ↔ Forall2 (fun a b => f a = ok b) l l'.
Proof.
  split.
  - revert l'. induction l as [|a l IH]; simpl; intros l' H.
    + inversion H; constructor.
    + rinv H. rinv H. inversion H; subst. constructor; auto.
  - induction 1 as [|a b l l' Hab _ IH]; simpl; [reflexivity|].
    rewrite Hab; simpl. rewrite IH; reflexivity.
Qed.

Lemma mapM_ok_Forall2 {A B} (f : A → M B) (P : A → B → Prop) :
  (∀ a σ b σ', f a σ = ok (b, σ') → P a b) →
  ∀ l σ l' σ', mapM f l σ = ok (l', σ') → Forall2 P l l'.
Proof.
  intros HP. induction l as [|a l IH]; simpl; intros σ l' σ' H.
  - apply mretM_ok_inv in H as [-> _]. constructor.
  - minv H. minv H. apply mretM_ok_inv in H as [-> _].
    constructor; eauto.
Qed.

Lemma mapR_ok_id {A} (f : A → result A) (l : list A) :
  Forall (fun a => f a = ok a) l → mapR f l = ok l.
Proof.
  induction 1 as [|a l Ha _ IH]; simpl; [reflexivity|].
  rewrite Ha; simpl. rewrite IH; reflexivity.
Qed.

Lemma mapR_ok_map {A B} (f : A → result B) (g : A → B) (l : list A) :
  Forall (fun a => f a = ok (g a)) l → mapR f l = ok (map g l).
Proof.
  induction 1 as [|a l Ha _ IH]; simpl; [reflexivity|].
  rewrite Ha; simpl. rewrite IH; reflexivity.
Qed.

(** A comprehension whose body either succeeds or raises [e] raises [e] as
    soon as one element does. *)
Lemma mapR_raise {A B} (f : A → result B) (e : error) (l : list A) :
  Forall (fun a => (∃ b, f a = ok b) ∨ f a = raise e) l →
  Exists (fun a => f a = raise e) l →
  mapR f l = raise e.
Proof.
  induction 1 as [|a l Ha _ IH]; intros Hex; [inversion Hex|].
  simpl. destruct Ha as [[b Hb]|Ha].
  - rewrite Hb. cbn [rbind]. inversion Hex as [? ? Hhd|? ? Htl]; subst.
    + congruence.
    + rewrite (IH Htl). reflexivity.
  - rewrite Ha. reflexivity.
Qed.

(** ** Conversions never make a NaN *)

Lemma shr_1_nonneg (mrs : shr_record) :
  (0 <= shr_m mrs)%Z → (0 <= shr_m (shr_1 mrs))%Z.
Proof.
  destruct mrs as [m r s]. cbn [shr_m]. intros Hm.
  destruct m as [|p|p]; [cbn; lia| |lia].
  destruct p; cbn; lia.
Qed.

Lemma iter_pos_shr_1_nonneg (p : positive) (mrs : shr_record) :
  (0 <= shr_m mrs)%Z → (0 <= shr_m (SpecFloat.iter_pos shr_1 p mrs))%Z.
Proof.
  revert mrs. induction p as [p IH|p IH|]; intros mrs Hm;
    cbn [SpecFloat.iter_pos].
  - apply IH, IH, shr_1_nonneg, Hm.
  - apply IH, IH, Hm.
  - apply shr_1_nonneg, Hm.
Qed.

Lemma shr_fexp_nonneg (prec emax m e : Z) (l : location) :
  (0 <= m)%Z → (0 <= shr_m (shr_fexp prec emax m e l).1)%Z.
Proof.
  intros Hm. unfold shr_fexp, shr.
  assert (H0 : (0 <= shr_m (shr_record_of_loc m l))%Z).
  { destruct l as [|[]]; exact Hm. }
  destruct (fexp prec emax (Zdigits2 m + e) - e)%Z; cbn [fst]; auto.
  apply iter_pos_shr_1_nonneg, H0.
Qed.

Lemma binary_round_aux_not_nan (prec emax : Z) (sx : bool) (mx ex : Z)
    (lx : location) :
  (0 <= mx)%Z → isnan (binary_round_aux prec emax sx mx ex lx) = false.
Proof.
  intros Hm. unfold binary_round_aux.
  pose proof (shr_fexp_nonneg prec emax mx ex lx Hm) as H1.
  destruct (shr_fexp prec emax mx ex lx) as [mrs' e']. cbn [fst] in H1.
  assert (H2 : (0 <= round_nearest_even (shr_m mrs') (loc_of_shr_record mrs'))%Z).
  { unfold round_nearest_even.
    destruct (loc_of_shr_record mrs') as [|[]];
      try destruct (Z.even (shr_m mrs')); lia. }
  pose proof (shr_fexp_nonneg prec emax _ e' loc_Exact H2) as H3.
  destruct (shr_fexp prec emax _ e' loc_Exact) as [mrs'' e'']. cbn [fst] in H3.
  destruct (shr_m mrs'') as [|p|p]; [reflexivity| |lia].
  destruct (e'' <=? emax - prec)%Z; reflexivity.
Qed.

Lemma binary_round_not_nan (prec emax : Z) (sx : bool) (mx : positive) (ex : Z) :
  isnan (binary_round prec emax sx mx ex) = false.
Proof.
  unfold binary_round. destruct (shl_align mx ex _) as [mz ez].
  apply binary_round_aux_not_nan. lia.
Qed.

Lemma float_of_int_not_nan (dt : dtype) (z : Z) : isnan (float_of_int dt z) = false.
Proof.
  unfold float_of_int, binary_normalize.
  destruct z; [reflexivity| |]; apply binary_round_not_nan.
Qed.

Lemma cast_float_isnan (dt : dtype) (x : spec_float) :
  isnan (cast_float dt x) = isnan x.
Proof.
  destruct x; try reflexivity. cbn [cast_float isnan].
  apply binary_round_not_nan.
Qed.

(** ** Lists filtered by flags *)

Lemma zip_filter_not_cons {A} (x : A) xs (b : bool) bs :
  zip_filter_not (x :: xs) (b :: bs) =
  if b then zip_filter_not xs bs else x :: zip_filter_not xs bs.
Proof.
  unfold zip_filter_not. simpl. rewrite filter_cons. simpl.
  destruct b; simpl; reflexivity.
Qed.

Lemma zip_filter_not_nil_r {A} (xs : list A) : zip_filter_not xs [] = [].
Proof. destruct xs; reflexivity. Qed.

Lemma zip_filter_not_map {A} (p : A → bool) (xs : list A) :
  zip_filter_not xs (map p xs) = filter (fun x => negb (p x)) xs.
Proof.
  induction xs as [|x xs IH]; [reflexivity|].
  simpl map. rewrite zip_filter_not_cons, filter_cons, IH.
  destruct (p x); simpl; reflexivity.
Qed.

Lemma zip_filter_not_Forall2 {A B} (R : A → B → Prop) xs ys (flags : list bool) :
  Forall2 R xs ys →
  Forall2 R (zip_filter_not xs flags) (zip_filter_not ys flags).
Proof.
  intros H. revert flags.
  induction H as [|x y xs ys Hxy _ IH]; intros flags.
  - destruct flags; constructor.
  - destruct flags as [|b flags]; [rewrite !zip_filter_not_nil_r; constructor|].
    rewrite !zip_filter_not_cons. destruct b; auto.
Qed.

Lemma filter_notR_ok {A} (p : A → result bool) (l : list A) (flags : list bool) :
  mapR p l = ok flags → filter_notR p l = ok (zip_filter_not l flags).
Proof.
  revert flags. induction l as [|a l IH]; simpl; intros flags H.
  - inversion H; reflexivity.
  - rinv H. rinv H. inversion H; subst. rewrite E. simpl.
    rewrite (IH _ E0). simpl. rewrite zip_filter_not_cons. reflexivity.
Qed.

Lemma zip_filter_not_elem_of {A} (f : A → result bool) (xs : list A) flags :
  mapR f xs = ok flags →
  ∀ x, x ∈ zip_filter_not xs flags ↔ x ∈ xs ∧ f x = ok false.
Proof.
  revert flags. induction xs as [|a xs IH]; simpl; intros flags H x.
  - inversion H; subst. rewrite zip_filter_not_nil_r.
    split; [intros Hx; inversion Hx|intros [Hx _]; inversion Hx].
  - rinv H. rinv H. inversion H; subst. rewrite zip_filter_not_cons.
    specialize (IH _ E0 x). destruct a0.
    + rewrite IH, elem_of_cons. split; [tauto|].
      intros [[->|Hx] Hf]; [congruence|tauto].
    + rewrite !elem_of_cons, IH. split; [|tauto].
      intros [->|[Hx Hf]]; auto.
Qed.

Lemma zip_filter_not_all_true {A} (xs : list A) (flags : list bool) :
  Forall (fun b => b = true) flags → zip_filter_not xs flags = [].
Proof.
  intros H. revert xs. induction H as [|b flags -> _ IH]; intros xs.
  - apply zip_filter_not_nil_r.
  - destruct xs as [|x xs]; [reflexivity|].
    rewrite zip_filter_not_cons. apply IH.
Qed.

Lemma zip_filter_not_sublist {A} (xs : list A) (flags : list bool) :
  zip_filter_not xs flags `sublist_of` xs.
Proof.
  revert flags. induction xs as [|x xs IH]; intros flags.
  - destruct flags; constructor.
  - destruct flags as [|b flags].
    + rewrite zip_filter_not_nil_r. apply sublist_nil_l.
    + rewrite zip_filter_not_cons. destruct b.
      * apply sublist_cons, IH.
      * apply sublist_skip, IH.
Qed.

(** ** The duration filter *)

Section DurationFilter.
Variable lib : Library.
Variable self : UnitYDataLoader.

(** What [_is_long_src_audio] answers: the duration it compares is the
    longest dimension of the loaded waveform over its sample rate. *)
Lemma is_long_src_audio_spec (sample : LangPairSample) (b : bool) :
  _is_long_src_audio lib self sample = ok b ↔
  ∃ wav sample_rate longest length_s,
    torchaudio_load lib (audio_local_path (source sample)) = ok (wav, sample_rate) ∧
    py_max (shape wav) = ok longest ∧
    py_truediv (Z.of_nat longest) sample_rate = ok length_s ∧
    b = py_float_gt length_s (max_audio_length_sec (batching_config self)).
Proof.
  unfold _is_long_src_audio. split.
  - intros H. rinv H. rinv H. rinv H. inversion H; subst.
    destruct a as [wav sr]. simpl in *. eauto 10.
  - intros (wav & sr & longest & length_s & -> & H1 & H2 & ->). simpl.
    rewrite H1. simpl. rewrite H2. reflexivity.
Qed.

(** C2. On a non-empty list whose waveforms all load, the duration filter
    keeps, in order, exactly the samples that are not too long; when every
    sample is too long it keeps the first sample alone. *)
Theorem filter_long_audio_spec (s0 : LangPairSample)
    (rest : list LangPairSample) (flags : list bool) :
  mapR (_is_long_src_audio lib self) (s0 :: rest) = ok flags →
  ∃ kept,
    filter_long_audio lib self (s0 :: rest) = ok kept ∧
    kept ≠ [] ∧
    (Exists (fun s => _is_long_src_audio lib self s = ok false) (s0 :: rest) →
       kept = zip_filter_not (s0 :: rest) flags ∧
       kept `sublist_of` (s0 :: rest) ∧
       ∀ s, s ∈ kept ↔
            s ∈ s0 :: rest ∧ _is_long_src_audio lib self s = ok false) ∧
    (Forall (fun s => _is_long_src_audio lib self s = ok true) (s0 :: rest) →
       kept = [s0]).
Proof.
  intros Hflags. unfold filter_long_audio.
  rewrite (filter_notR_ok _ _ _ Hflags). cbn [rbind].
  pose proof (zip_filter_not_elem_of _ _ _ Hflags) as Hmem.
  destruct (zip_filter_not (s0 :: rest) flags) as [|k kept] eqn:Hk.
  - exists [s0]. cbn. split; [reflexivity|]. split; [discriminate|]. split.
    + intros Hex. apply Exists_exists in Hex as (s & Hs & Hf).
      exfalso.
      pose proof (proj2 (Hmem s) (conj Hs Hf)) as Hin. inversion Hin.
    + reflexivity.
  - exists (k :: kept). split; [reflexivity|]. split; [discriminate|]. split.
    + intros _. split; [reflexivity|]. split; [|exact Hmem].
      rewrite <- Hk. apply zip_filter_not_sublist.
    + intros Hall. exfalso.
      assert (Hin : k ∈ k :: kept) by apply list_elem_of_here.
      apply Hmem in Hin as [Hin Hf].
      rewrite Forall_forall in Hall.
      specialize (Hall _ Hin). congruence.
Qed.
End DurationFilter.

(** ** The NaN filter *)

Section NanFilter.
Variable lib : Library.
Variable self : UnitYDataLoader.

Lemma zip_filter_not_isnan_Forall (fbs : list (Tensor spec_float)) :
  Forall (fun m => any_isnan m = false)
         (zip_filter_not fbs (map any_isnan fbs)).
Proof.
  rewrite zip_filter_not_map. apply Forall_forall. intros m Hm.
  apply list_elem_of_filter in Hm as [Hm _].
  destruct (any_isnan m); [contradiction|reflexivity].
Qed.

Lemma filter_nans_ok_inv samples kept fbs :
  filter_nans lib self samples = ok (kept, fbs) →
  ∃ all_fbs,
    mapR (_get_source_fbank lib self) samples = ok all_fbs ∧
    kept = zip_filter_not samples (map any_isnan all_fbs) ∧
    fbs = zip_filter_not all_fbs (map any_isnan all_fbs) ∧
    kept ≠ [] ∧
    Forall2 (fun s m => _get_source_fbank lib self s = ok m) kept fbs ∧
    Forall (fun m => any_isnan m = false) fbs.
Proof.
  unfold filter_nans. intros H. rinv H. rinv H. inversion H; subst; clear H.
  exists a. split; [exact E|]. split; [reflexivity|]. split; [reflexivity|].
  apply py_assert_ok_inv in E0. split.
  - intros Hnil. rewrite Hnil in E0. discriminate.
  - split.
    + apply zip_filter_not_Forall2. apply mapR_ok_Forall2. exact E.
    + apply zip_filter_not_isnan_Forall.
Qed.

Lemma filter_nans_all_nan samples all_fbs :
  mapR (_get_source_fbank lib self) samples = ok all_fbs →
  Forall (fun m => any_isnan m = true) all_fbs →
  filter_nans lib self samples = raise AssertionError.
Proof.
  intros Hf Hall. unfold filter_nans. rewrite Hf. cbn [rbind].
  rewrite zip_filter_not_all_true; [reflexivity|].
  apply Forall_map. exact Hall.
Qed.

Lemma surviving_ok_inv raw kept fbs :
  surviving lib self raw = ok (kept, fbs) →
  ∃ samples0 samples1,
    mapR (from_json lib) raw = ok samples0 ∧
    filter_long_audio lib self samples0 = ok samples1 ∧
    filter_nans lib self samples1 = ok (kept, fbs).
Proof.
  unfold surviving. intros H. rinv H. rinv H. eauto.
Qed.
End NanFilter.

(** ** Inversion of a successful collate call *)

Section Prepared.
Variable lib : Library.
Variable self : UnitYDataLoader.

Lemma prepare_batch_ok_inv raw σ b σ' :
  _prepare_batch lib self raw σ = ok (b, σ') →
  ∃ kept fbs padded sizes texts σ1 tv ulr uv,
    surviving lib self raw = ok (kept, fbs) ∧
    _batch_tensors fbs
      (float_of_int (float_dtype (batching_config self))
         (fbank_feats_pad_idx (batching_config self))) = ok padded ∧
    mapR shape0 fbs = ok sizes ∧
    mapM (_get_tokenized_target_text self) kept σ = ok (texts, σ1) ∧
    shifted_views texts (pad_idx (text_vocab_info (text_tokenizer self))) =
      ok tv ∧
    mapM (_get_tokenized_units self) kept σ1 = ok (ulr, σ') ∧
    (if existsb is_None ulr then uv = None
     else ∃ v, shifted_views (omap id ulr)
                 (pad_idx (unit_vocab_info (unit_tokenizer self))) = ok v ∧
               uv = Some v) ∧
    b = {| speech_to_text :=
             {| src_tokens :=
                  Some (tensor_to (float_dtype (batching_config self)) padded);
                src_lengths := Some (tensor1 (map Z.of_nat sizes));
                target_tokens := Some tv.1.2;
                prev_output_tokens := Some tv.1.1;
                target_lengths := Some tv.2 |};
           text_to_units :=
             {| src_tokens := None;
                src_lengths := None;
                target_tokens := (fun v => v.1.2) <$> uv;
                prev_output_tokens := (fun v => v.1.1) <$> uv;
                target_lengths := (fun v => v.2) <$> uv |} |}.
Proof.
  unfold _prepare_batch. intros H.
  apply mbindM_ok_inv in H as (samples0 & ? & E0 & H).
  apply liftR_ok_inv in E0 as [E0 ->].
  apply mbindM_ok_inv in H as (samples1 & ? & E1 & H).
  apply liftR_ok_inv in E1 as [E1 ->].
  apply mbindM_ok_inv in H as ([kept fbs] & ? & E2 & H).
  apply liftR_ok_inv in E2 as [E2 ->]. cbn [fst snd] in H.
  apply mbindM_ok_inv in H as (padded & ? & E3 & H).
  apply liftR_ok_inv in E3 as [E3 ->].
  apply mbindM_ok_inv in H as (sizes & ? & E4 & H).
  apply liftR_ok_inv in E4 as [E4 ->].
  apply mbindM_ok_inv in H as (texts & σ1 & E5 & H).
  apply mbindM_ok_inv in H as (tv & ? & E6 & H).
  apply liftR_ok_inv in E6 as [E6 ->].
  apply mbindM_ok_inv in H as (ulr & σ2 & E7 & H).
  apply mbindM_ok_inv in H as (uv & σ3 & E8 & H).
  apply mretM_ok_inv in H as [-> ->].
  assert (Huv : σ3 = σ2 ∧
                if existsb is_None ulr then uv = None
                else ∃ v, shifted_views (omap id ulr)
                            (pad_idx (unit_vocab_info (unit_tokenizer self))) =
                            ok v ∧ uv = Some v).
  { destruct (existsb is_None ulr).
    - apply mretM_ok_inv in E8 as [-> ->]. auto.
    - apply mbindM_ok_inv in E8 as (v & ? & E9 & E8).
      apply liftR_ok_inv in E9 as [E9 ->].
      apply mretM_ok_inv in E8 as [-> ->]. eauto. }
  destruct Huv as [-> Huv].
  exists kept, fbs, padded, sizes, texts, σ1, tv, ulr, uv.
  split. { unfold surviving. rewrite E0. cbn [rbind]. rewrite E1. exact E2. }
  do 5 (split; [assumption|]).
  split; [exact Huv|reflexivity].
Qed.
End Prepared.

(** ** The batch assembler *)

Lemma foldl_max_spec (l : list nat) (x : nat) :
  foldl Nat.max x l ∈ x :: l ∧ Forall (fun y => y ≤ foldl Nat.max x l) (x :: l).
Proof.
  revert x. induction l as [|y l IH]; intros x; simpl.
  - split; [apply list_elem_of_here|]. constructor; [lia|constructor].
  - destruct (IH (Nat.max x y)) as [Hin Hle]. split.
    + apply elem_of_cons in Hin as [Heq|Hin].
      * rewrite Heq. destruct (Nat.max_spec x y) as [[_ ->]|[_ ->]].
        -- apply list_elem_of_further, list_elem_of_here.
        -- apply list_elem_of_here.
      * do 2 apply list_elem_of_further. exact Hin.
    + inversion Hle as [|? ? Hm Hl]; subst.
      constructor; [lia|]. constructor; [lia|]. exact Hl.
Qed.

Lemma py_max_spec (l : list nat) (L : nat) :
  py_max l = ok L → L ∈ l ∧ Forall (fun y => y ≤ L) l.
Proof.
  destruct l as [|x l]; simpl; intros H; inversion H; subst.
  apply foldl_max_spec.
Qed.

Lemma py_max_total (l : list nat) : l ≠ [] → ∃ L, py_max l = ok L.
Proof. destruct l; [congruence|]. simpl; eauto. Qed.

Lemma pad_tensor_ok_inv {A} dims p (v : A) t t' :
  pad_tensor dims p v t = ok t' →
  ∃ n rest,
    shape t = n :: rest ∧ length (shape t) = dims ∧
    t' = mkTensor (n + p :: rest) (data t ++ replicate (p * numel rest) v).
Proof.
  unfold pad_tensor. destruct (shape t) as [|n rest] eqn:Hs; [discriminate|].
  destruct (Nat.eqb_spec (length (n :: rest)) dims) as [Hd|]; [|discriminate].
  intros H; inversion H; subst. eauto.
Qed.

Lemma torch_stack_ok_inv {A} (ts : list (Tensor A)) b :
  torch_stack ts = ok b →
  ∃ t0 ts',
    ts = t0 :: ts' ∧ Forall (fun t => shape t = shape t0) ts ∧
    b = mkTensor (length ts :: shape t0) (concat (map data ts)).
Proof.
  unfold torch_stack. destruct ts as [|t0 ts']; [discriminate|].
  destruct (forallb _ _) eqn:Hall; [|discriminate].
  intros H; inversion H; subst. exists t0, ts'. split; [reflexivity|].
  split; [|reflexivity].
  apply Forall_forall. intros t Ht.
  rewrite forallb_forall in Hall. apply list_elem_of_In in Ht.
  specialize (Hall _ Ht). unfold shape_eqb in Hall.
  apply bool_decide_eq_true in Hall. exact Hall.
Qed.

(** What a successful call of [_batch_tensors] returns: the tensors share
    their trailing shape, the result has one row per tensor, its second
    dimension is the largest leading length, and its elements are the
    elements of each tensor followed by that tensor's padding. *)
Lemma batch_tensors_ok_inv {A} (ts : list (Tensor A)) (v : A) b :
  _batch_tensors ts v = ok b →
  ∃ sizes L rest,
    ts ≠ [] ∧
    Forall2 (fun t n => shape t = n :: rest) ts sizes ∧
    py_max sizes = ok L ∧
    shape b = length ts :: L :: rest ∧
    data b = concat (map (padded_data L v) ts).
Proof.
  unfold _batch_tensors. intros H.
  apply rbind_ok_inv in H as (sizes & Hsizes & H).
  apply rbind_ok_inv in H as (L & HL & H).
  apply rbind_ok_inv in H as (t0 & Ht0 & H).
  apply rbind_ok_inv in H as (padded & Hpad & H).
  apply torch_stack_ok_inv in H as (p0 & ps & Hps & Hshapes & ->).
  apply mapR_ok_Forall2 in Hsizes, Hpad.
  destruct (py_max_spec _ _ HL) as [_ Hle].
  (* every padded tensor is the padding of its source to length [L] *)
  assert (Hchar : Forall2 (fun t' t'' =>
                     shape t'' = L :: tail (shape t') ∧
                     data t'' = padded_data L v t') ts padded).
  { clear Hps Hshapes HL Ht0. revert Hsizes Hle.
    generalize (length (shape t0)) as dims. intros dims.
    revert sizes. induction Hpad as [|t' t'' l l' Hp _ IH]; intros sizes Hsizes Hle.
    - constructor.
    - inversion Hsizes as [|? n ? sizes' Hn Hsz]; subst.
      inversion Hle as [|? ? HnL Hle']; subst.
      constructor; [|eapply IH; eauto].
      rewrite Hn in Hp. cbn [rbind] in Hp.
      apply pad_tensor_ok_inv in Hp as (n' & rest & Hs & _ & ->).
      unfold shape0 in Hn. rewrite Hs in Hn. inversion Hn; subst n'.
      unfold padded_data. rewrite Hs. cbn [head default tail shape data].
      replace (n + (L - n)) with L by lia. auto. }
  exists sizes, L, (tail (shape p0)).
  assert (Hp0 : shape p0 = L :: tail (shape p0)).
  { subst padded. inversion Hchar as [|? ? ? ? [Hs _] _]; subst.
    rewrite Hs. reflexivity. }
  split. { destruct ts; [discriminate|discriminate]. }
  split.
  { clear HL Ht0 Hle Hps Hpad.
    revert sizes Hsizes. rewrite Forall_forall in Hshapes.
    induction Hchar as [|t' t'' l l' [Hs _] Hrest IH]; intros sizes Hsizes.
    - inversion Hsizes; constructor.
    - inversion Hsizes as [|? n ? sizes' Hn Hsz]; subst.
      constructor.
      + assert (Ht'' : shape t'' = shape p0).
        { apply Hshapes. apply list_elem_of_here. }
        rewrite Hs, Hp0 in Ht''. inversion Ht'' as [Htl].
        unfold shape0 in Hn. destruct (shape t') as [|m r]; [discriminate|].
        inversion Hn; subst. cbn [tail] in Htl. congruence.
      + apply IH; [|exact Hsz]. intros x Hx. apply Hshapes.
        apply list_elem_of_further. exact Hx. }
  split; [exact HL|]. cbn [shape data]. split.
  - rewrite <- (Forall2_length _ _ _ Hchar). rewrite Hp0 at 1. reflexivity.
  - f_equal. clear - Hchar.
    induction Hchar as [|t' t'' l l' [_ Hd] _ IH]; [reflexivity|].
    simpl. rewrite Hd, IH. reflexivity.
Qed.

Lemma lookup_map {A B} (f : A → B) (l : list A) (i : nat) :
  map f l !! i = f <$> (l !! i).
Proof. change (map f l) with (f <$> l). apply list_lookup_fmap. Qed.

(** Rows of a stack: with chunks of one length, the [i]-th slice of the
    concatenation is the [i]-th chunk. *)
Lemma take_drop_concat {A} (chunks : list (list A)) (K i : nat) (c : list A) :
  Forall (fun c' => length c' = K) chunks →
  chunks !! i = Some c →
  take K (drop (i * K) (concat chunks)) = c.
Proof.
  intros Hall. revert i. induction Hall as [|c' chunks Hc _ IH]; intros i Hi.
  - destruct i; discriminate.
  - destruct i as [|i]; simpl in *.
    + inversion Hi; subst. apply take_app_length'. reflexivity.
    + rewrite drop_app_add' by (symmetry; exact Hc). apply IH. exact Hi.
Qed.

Lemma torch_stack_row {A} (ts : list (Tensor A)) b i t :
  torch_stack ts = ok b →
  Forall wf_tensor ts →
  ts !! i = Some t →
  row i b = t.
Proof.
  intros Hst Hwf Hi.
  apply torch_stack_ok_inv in Hst as (t0 & ts' & Hts & Hshapes & ->).
  unfold row. cbn [shape tail data].
  assert (Ht : shape t = shape t0).
  { rewrite Forall_forall in Hshapes. apply Hshapes.
    eapply list_elem_of_lookup_2; eauto. }
  rewrite (take_drop_concat (map data ts) (numel (shape t0)) i (data t)).
  - rewrite <- Ht. destruct t; reflexivity.
  - apply Forall_map. apply Forall_forall. intros t' Ht'.
    rewrite Forall_forall in Hwf. rewrite Forall_forall in Hshapes.
    rewrite <- (Hshapes _ Ht'). apply Hwf. exact Ht'.
  - rewrite lookup_map, Hi. reflexivity.
Qed.

(** Rows of a batch: row [i] holds the elements of the [i]-th tensor
    followed by padding. *)
Lemma batch_tensors_rows {A} (ts : list (Tensor A)) (v : A) b i t :
  _batch_tensors ts v = ok b →
  Forall wf_tensor ts →
  ts !! i = Some t →
  ∃ k, data (row i b) = data t ++ replicate k v.
Proof.
  intros Hb Hwf Hi.
  apply batch_tensors_ok_inv in Hb
    as (sizes & L & rest & _ & Hsh & HL & Hshape & Hdata).
  destruct (py_max_spec _ _ HL) as [_ Hle].
  unfold row. rewrite Hshape, Hdata. cbn [tail data].
  exists ((L - default 0 (head (shape t))) * numel (tail (shape t))).
  apply (take_drop_concat (map (padded_data L v) ts)).
  - apply Forall_map. apply Forall_forall. intros t' Ht'.
    apply list_elem_of_lookup_1 in Ht' as [j Hj].
    destruct (Forall2_lookup_l _ _ _ _ _ Hsh Hj) as (n & Hn & Hs).
    rewrite Forall_forall in Hwf. rewrite Forall_forall in Hle.
    assert (Hw : length (data t') = n * numel rest).
    { rewrite (Hwf t') by (eapply list_elem_of_lookup_2; eauto).
      rewrite Hs. reflexivity. }
    assert (n ≤ L) by (apply Hle; eapply list_elem_of_lookup_2; eauto).
    unfold padded_data. rewrite Hs. cbn [head default tail].
    rewrite length_app, length_replicate, Hw.
    change (numel (L :: rest)) with (L * numel rest).
    rewrite <- Nat.mul_add_distr_r. f_equal. unfold id. lia.
  - change (map ?f ts) with (f <$> ts). rewrite list_lookup_fmap, Hi.
    reflexivity.
Qed.

Lemma row_tensor_to (dt : dtype) (i : nat) (t : Tensor spec_float) :
  row i (tensor_to dt t) = tensor_to dt (row i t).
Proof.
  unfold row, tensor_to. cbn [shape data]. f_equal.
  rewrite skipn_map, firstn_map. reflexivity.
Qed.

Lemma any_isnan_false (t : Tensor spec_float) :
  any_isnan t = false ↔ Forall (fun x => isnan x = false) (data t).
Proof.
  unfold any_isnan. induction (data t) as [|x d IH]; simpl.
  - split; [constructor|reflexivity].
  - rewrite orb_false_iff, IH. split.
    + intros [Hx Hd]. constructor; assumption.
    + intros H. inversion H; auto.
Qed.

(** A batch assembled from matrices without a NaN, with a pad value that is
    not a NaN, holds no NaN, also after its conversion. *)
Lemma batch_tensors_no_nan (dt : dtype) (fbs : list (Tensor spec_float))
    (v : spec_float) padded :
  _batch_tensors fbs v = ok padded →
  Forall (fun m => any_isnan m = false) fbs →
  isnan v = false →
  any_isnan (tensor_to dt padded) = false.
Proof.
  intros Hb Hfree Hv.
  apply batch_tensors_ok_inv in Hb as (sizes & L & rest & _ & _ & _ & _ & Hdata).
  apply any_isnan_false. cbn [tensor_to data]. rewrite Hdata.
  apply Forall_map. apply Forall_concat. apply Forall_map.
  eapply Forall_impl; [exact Hfree|]. intros m Hm. cbn beta.
  unfold padded_data. apply Forall_app. split.
  - eapply Forall_impl; [apply any_isnan_false; exact Hm|].
    intros x Hx. cbn beta. rewrite cast_float_isnan. exact Hx.
  - apply Forall_replicate. rewrite cast_float_isnan. exact Hv.
Qed.

Section Tokens.
Context {A : Type}.

Lemma drop_last_tensor1 (S : list A) :
  drop_last (tensor1 S) = ok (tensor1 (take (length S - 1) S)).
Proof.
  unfold drop_last, tensor1. cbn [shape data numel foldr].
  rewrite Nat.mul_1_r, length_take_le by lia. reflexivity.
Qed.

Lemma drop_first_tensor1 (S : list A) :
  drop_first (tensor1 S) = ok (tensor1 (drop 1 S)).
Proof.
  unfold drop_first, tensor1. cbn [shape data numel foldr].
  rewrite length_drop. reflexivity.
Qed.

Lemma pad_tensor1 (L : nat) (v : A) (S : list A) :
  length S ≤ L →
  pad_tensor 1 (L - length S) v (tensor1 S) =
  ok (tensor1 (S ++ replicate (L - length S) v)).
Proof.
  intros HL. unfold pad_tensor, tensor1. cbn [shape data numel foldr length].
  rewrite Nat.eqb_refl, Nat.mul_1_r, length_app, length_replicate.
  reflexivity.
Qed.

(** [_batch_tensors] on one-dimensional tensors: it succeeds on every
    non-empty list and right-pads each sequence to the longest length. *)
Lemma batch_tensors_tensor1 (seqs : list (list A)) (v : A) (L : nat) :
  py_max (map length seqs) = ok L →
  _batch_tensors (map tensor1 seqs) v =
  ok (mkTensor [length seqs; L]
        (concat (map (fun S => S ++ replicate (L - length S) v) seqs))).
Proof.
  intros HL. unfold _batch_tensors.
  rewrite (mapR_ok_map shape0 (fun t => default 0 (head (shape t)))).
  2:{ apply Forall_forall. intros t Ht. apply list_elem_of_In in Ht.
      apply in_map_iff in Ht as (S & <- & _). reflexivity. }
  cbn [rbind].
  replace (map (fun t : Tensor A => default 0 (head (shape t))) (map tensor1 seqs))
    with (map length seqs) by (rewrite map_map; reflexivity).
  rewrite HL. cbn [rbind].
  destruct (py_max_spec _ _ HL) as [_ Hle].
  destruct seqs as [|S0 seqs']; [discriminate|].
  remember (S0 :: seqs') as seqs eqn:Hseqs.
  replace (py_first (map tensor1 seqs)) with (ok (tensor1 S0))
    by (subst; reflexivity).
  cbn [rbind tensor1 shape length].
  rewrite (mapR_ok_map _
             (fun t => tensor1 (data t ++ replicate (L - length (data t)) v))).
  2:{ apply Forall_forall. intros t Ht. apply list_elem_of_In in Ht.
      apply in_map_iff in Ht as (S & <- & HS).
      cbn [tensor1 shape0 shape py_first rbind data].
      apply pad_tensor1. rewrite Forall_forall in Hle. apply Hle.
      apply list_elem_of_In. apply in_map. exact HS. }
  cbn [rbind]. rewrite map_map. cbn [tensor1 data].
  set (padded := map _ seqs).
  assert (Hshapes : Forall (fun t => shape t = [L]) padded).
  { subst padded. apply Forall_map. apply Forall_forall. intros S HS.
    cbn [shape tensor1 data]. rewrite length_app, length_replicate.
    rewrite Forall_forall in Hle.
    assert (length S ≤ L).
    { apply Hle. apply list_elem_of_In. apply in_map.
      apply list_elem_of_In. exact HS. }
    f_equal. lia. }
  assert (Hlen : length padded = length seqs).
  { subst padded. apply length_map. }
  assert (Hdata : map data padded =
                  map (fun S => S ++ replicate (L - length S) v) seqs).
  { subst padded. rewrite map_map. reflexivity. }
  clearbody padded. unfold torch_stack.
  destruct padded as [|p0 ps]; [subst seqs; discriminate|].
  assert (Hp0 : shape p0 = [L]).
  { inversion Hshapes; assumption. }
  rewrite Hp0.
  replace (forallb _ (p0 :: ps)) with true.
  2:{ symmetry. apply forallb_forall. intros t Ht. unfold shape_eqb.
      apply bool_decide_eq_true. rewrite Forall_forall in Hshapes.
      apply Hshapes. apply list_elem_of_In. exact Ht. }
  rewrite Hlen, Hdata. reflexivity.
Qed.
End Tokens.

(** ** Padding of batches that are already aligned *)

Lemma foldl_max_const (n : nat) (l : list nat) :
  Forall (fun m => m = n) l → foldl Nat.max n l = n.
Proof.
  induction 1 as [|m l -> _ IH]; simpl; [reflexivity|].
  rewrite Nat.max_id. exact IH.
Qed.

Lemma py_max_const (n : nat) (l : list nat) :
  l ≠ [] → Forall (fun m => m = n) l → py_max l = ok n.
Proof.
  intros Hne Hall. destruct l as [|m l]; [congruence|].
  inversion Hall as [|? ? -> Hl]; subst. simpl.
  rewrite foldl_max_const; auto.
Qed.

(** Padding by nothing: the tensor comes back when its rank is the expected
    one, and the call is an error otherwise. *)
Lemma pad_tensor_zero {A} (dims : nat) (v : A) (t : Tensor A) (n : nat) :
  shape0 t = ok n →
  pad_tensor dims 0 v t =
  if length (shape t) =? dims then ok t else raise RuntimeError.
Proof.
  unfold shape0, pad_tensor. destruct t as [s d]. cbn [shape data].
  destruct s as [|m rest]; [discriminate|]. intros _.
  destruct (length (m :: rest) =? dims); [|reflexivity].
  cbn [replicate Nat.mul]. rewrite Nat.add_0_r, app_nil_r. reflexivity.
Qed.

Lemma batch_tensors_aligned {A} (tensors : list (Tensor A))
    (pad_value : A) (n : nat) :
  tensors ≠ [] →
  Forall (fun t => shape0 t = ok n) tensors →
  _batch_tensors tensors pad_value = torch_stack tensors.
Proof.
  intros Hne Hall. unfold _batch_tensors.
  rewrite (mapR_ok_map shape0 (fun _ => n)) by exact Hall.
  cbn [rbind].
  rewrite (py_max_const n).
  2:{ destruct tensors; [congruence|discriminate]. }
  2:{ clear. induction tensors; simpl; constructor; auto. }
  cbn [rbind].
  destruct tensors as [|t0 ts]; [congruence|]. cbn [py_first rbind].
  set (dims := length (shape t0)).
  set (pad_one := fun tensor : Tensor A =>
         rbind (shape0 tensor)
           (fun n' => pad_tensor dims (n - n') pad_value tensor)).
  assert (Hpad : Forall (fun t => pad_one t =
              if length (shape t) =? dims then ok t else raise RuntimeError)
            (t0 :: ts)).
  { eapply Forall_impl; [exact Hall|]. intros t Hn. cbn beta in Hn.
    unfold pad_one. rewrite Hn. cbn [rbind]. rewrite Nat.sub_diag.
    exact (pad_tensor_zero dims pad_value t n Hn). }
  destruct (forallb (fun t => length (shape t) =? dims) (t0 :: ts)) eqn:Hranks.
  - rewrite (mapR_ok_id pad_one (t0 :: ts)); [reflexivity|].
    rewrite forallb_forall in Hranks. rewrite Forall_forall in Hpad.
    apply Forall_forall. intros t Ht. rewrite (Hpad _ Ht).
    rewrite Hranks by (apply list_elem_of_In; exact Ht). reflexivity.
  - rewrite (mapR_raise pad_one RuntimeError (t0 :: ts)).
    + cbn [rbind]. unfold torch_stack.
      destruct (forallb (fun t' => shape_eqb (shape t') (shape t0)) (t0 :: ts))
        eqn:Hshapes; [|reflexivity].
      exfalso. apply not_true_iff_false in Hranks. apply Hranks.
      apply forallb_forall. intros t Ht.
      rewrite forallb_forall in Hshapes. specialize (Hshapes _ Ht).
      unfold shape_eqb in Hshapes. apply bool_decide_eq_true in Hshapes.
      rewrite Hshapes. apply Nat.eqb_refl.
    + eapply Forall_impl; [exact Hpad|]. intros t Ht. cbn beta in Ht.
      rewrite Ht. destruct (length (shape t) =? dims); eauto.
    + apply not_true_iff_false in Hranks.
      apply Exists_exists.
      destruct (existsb (fun t => negb (length (shape t) =? dims)) (t0 :: ts))
        eqn:Hex.
      * apply existsb_exists in Hex as (t & Ht & Hr).
        exists t. split; [apply list_elem_of_In; exact Ht|].
        rewrite Forall_forall in Hpad.
        rewrite (Hpad t) by (apply list_elem_of_In; exact Ht).
        destruct (length (shape t) =? dims); [discriminate|reflexivity].
      * exfalso. apply Hranks. apply forallb_forall. intros t Ht.
        destruct (length (shape t) =? dims) eqn:Hr; [reflexivity|].
        assert (existsb (fun t => negb (length (shape t) =? dims)) (t0 :: ts) = true).
        { apply existsb_exists. exists t. rewrite Hr. auto. }
        congruence.
Qed.

(** C8. Padding is the identity on aligned batches: when the tensors of a
    non-empty list all have the same leading length, [_batch_tensors] is
    [torch.stack] of the unmodified tensors, whatever the pad value (it
    fails exactly when [torch.stack] does), and row [i] of the batch is the
    [i]-th tensor. *)
Theorem batch_tensors_aligned_is_stack {A} (tensors : list (Tensor A))
    (pad_value : A) (n : nat) :
  tensors ≠ [] →
  Forall (fun t => shape0 t = ok n) tensors →
  _batch_tensors tensors pad_value = torch_stack tensors ∧
  (Forall wf_tensor tensors →
   ∀ b i t, _batch_tensors tensors pad_value = ok b →
            tensors !! i = Some t → row i b = t).
Proof.
  intros Hne Hall.
  pose proof (batch_tensors_aligned tensors pad_value n Hne Hall) as Heq.
  split; [exact Heq|].
  intros Hwf b i t Hb Hi. rewrite Heq in Hb.
  eapply torch_stack_row; eauto.
Qed.

(** ** Shifted views of token sequences *)

Lemma row_of_chunks {A} (N L i : nat) (chunks : list (list A)) (c : list A) :
  Forall (fun c' => length c' = L) chunks →
  chunks !! i = Some c →
  row i (mkTensor [N; L] (concat chunks)) = mkTensor [L] c.
Proof.
  intros Hall Hi. unfold row. cbn [shape tail data numel foldr].
  rewrite Nat.mul_1_r. f_equal. apply take_drop_concat; assumption.
Qed.

Lemma shifted_views_tensor1 (seqs : list (list Z)) (pad : Z) :
  seqs ≠ [] →
  ∃ L,
    py_max (map (fun S => length S - 1) seqs) = ok L ∧
    shifted_views (map tensor1 seqs) pad =
    ok (mkTensor [length seqs; L]
          (concat (map (fun S => take (length S - 1) S ++
                                 replicate (L - (length S - 1)) pad) seqs)),
        mkTensor [length seqs; L]
          (concat (map (fun S => drop 1 S ++
                                 replicate (L - (length S - 1)) pad) seqs)),
        tensor1 (map (fun S => (Z.of_nat (length S) - 1)%Z) seqs)).
Proof.
  intros Hne.
  destruct (py_max_total (map (fun S : list Z => length S - 1) seqs)) as [L HL].
  { destruct seqs; [congruence|discriminate]. }
  exists L. split; [exact HL|]. unfold shifted_views.
  rewrite (mapR_ok_map drop_last
             (fun t => tensor1 (take (length (data t) - 1) (data t)))).
  2:{ apply Forall_forall. intros t Ht. apply list_elem_of_In in Ht.
      apply in_map_iff in Ht as (S & <- & _). apply drop_last_tensor1. }
  cbn [rbind]. rewrite map_map. cbn [tensor1 data].
  rewrite <- (map_map (fun S => take (length S - 1) S) tensor1).
  rewrite (batch_tensors_tensor1 _ pad L).
  2:{ rewrite map_map. rewrite <- HL. f_equal. apply map_ext. intros S.
      apply length_take_le. lia. }
  cbn [rbind].
  rewrite (mapR_ok_map drop_first (fun t => tensor1 (drop 1 (data t)))).
  2:{ apply Forall_forall. intros t Ht. apply list_elem_of_In in Ht.
      apply in_map_iff in Ht as (S & <- & _). apply drop_first_tensor1. }
  cbn [rbind]. rewrite map_map. cbn [tensor1 data].
  rewrite <- (map_map (fun S => drop 1 S) tensor1).
  rewrite (batch_tensors_tensor1 _ pad L).
  2:{ rewrite map_map. rewrite <- HL. f_equal. apply map_ext. intros S.
      apply length_drop. }
  cbn [rbind].
  rewrite (mapR_ok_map shape0 (fun t => length (data t))).
  2:{ apply Forall_forall. intros t Ht. apply list_elem_of_In in Ht.
      apply in_map_iff in Ht as (S & <- & _). reflexivity. }
  cbn [rbind]. rewrite !length_map, !map_map. cbn [tensor1 data].
  rewrite (map_ext (fun x : list Z => take (length x - 1) x ++
                        replicate (L - length (take (length x - 1) x)) pad)
                     (fun S => take (length S - 1) S ++
                        replicate (L - (length S - 1)) pad)).
  2:{ intros S. rewrite length_take_le by lia. reflexivity. }
  rewrite (map_ext (fun x : list Z => drop 1 x ++
                        replicate (L - length (drop 1 x)) pad)
                     (fun S => drop 1 S ++ replicate (L - (length S - 1)) pad)).
  2:{ intros S. rewrite length_drop. reflexivity. }
  reflexivity.
Qed.

(** The rows of the views computed by [shifted_views]. *)
Lemma shifted_views_rows (seqs : list (list Z)) (pad : Z) prev tgt lens :
  shifted_views (map tensor1 seqs) pad = ok (prev, tgt, lens) →
  ∀ i S, seqs !! i = Some S → shifted_row S pad i prev tgt lens.
Proof.
  intros Hv i S Hi.
  assert (Hne : seqs ≠ []) by (intros ->; discriminate).
  destruct (shifted_views_tensor1 seqs pad Hne) as (L & HL & Heq).
  rewrite Heq in Hv. inversion Hv; subst prev tgt lens; clear Hv Heq.
  destruct (py_max_spec _ _ HL) as [_ Hle]. rewrite Forall_forall in Hle.
  assert (HSL : length S - 1 ≤ L).
  { apply Hle. apply list_elem_of_In.
    apply (in_map (fun S => length S - 1)). apply list_elem_of_In.
    eapply list_elem_of_lookup_2; eauto. }
  assert (Hprev : row i (mkTensor [length seqs; L]
            (concat (map (fun S => take (length S - 1) S ++
                                   replicate (L - (length S - 1)) pad) seqs)))
          = mkTensor [L] (take (length S - 1) S ++ replicate (L - (length S - 1)) pad)).
  { apply row_of_chunks.
    - apply Forall_map. apply Forall_forall. intros S' HS'.
      rewrite length_app, length_replicate, length_take.
      assert (length S' - 1 ≤ L).
      { apply Hle. apply list_elem_of_In.
        apply (in_map (fun S => length S - 1)). apply list_elem_of_In. exact HS'. }
      lia.
    - change (map ?f seqs) with (f <$> seqs). rewrite list_lookup_fmap, Hi.
      reflexivity. }
  assert (Htgt : row i (mkTensor [length seqs; L]
            (concat (map (fun S => drop 1 S ++
                                   replicate (L - (length S - 1)) pad) seqs)))
          = mkTensor [L] (drop 1 S ++ replicate (L - (length S - 1)) pad)).
  { apply row_of_chunks.
    - apply Forall_map. apply Forall_forall. intros S' HS'.
      rewrite length_app, length_replicate, length_drop.
      assert (length S' - 1 ≤ L).
      { apply Hle. apply list_elem_of_In.
        apply (in_map (fun S => length S - 1)). apply list_elem_of_In. exact HS'. }
      lia.
    - change (map ?f seqs) with (f <$> seqs). rewrite list_lookup_fmap, Hi.
      reflexivity. }
  unfold shifted_row. rewrite Hprev, Htgt. cbn [data tensor1].
  split; [eauto|]. split.
  - intros j Hj. split.
    + rewrite lookup_app_l by (rewrite length_take; lia).
      apply lookup_take_lt. lia.
    + rewrite lookup_app_l by (rewrite length_drop; lia).
      rewrite lookup_drop. f_equal. lia.
  - change (map ?f seqs) with (f <$> seqs). rewrite list_lookup_fmap, Hi.
    reflexivity.
Qed.

Lemma is_max_of_map {A} (f : A → nat) (g : A → Z) (l : list A) (L : nat) :
  (∀ a, a ∈ l → g a = Z.of_nat (f a)) →
  py_max (map f l) = ok L →
  is_max_of (Z.of_nat L) (map g l).
Proof.
  intros Hfg HL. destruct (py_max_spec _ _ HL) as [Hin Hle]. split.
  - apply list_elem_of_In in Hin. apply in_map_iff in Hin as (a & <- & Ha).
    apply list_elem_of_In. apply in_map_iff. exists a. split; [|exact Ha].
    apply Hfg. apply list_elem_of_In. exact Ha.
  - apply Forall_map. apply Forall_forall. intros a Ha.
    rewrite (Hfg _ Ha). rewrite Forall_forall in Hle.
    apply inj_le. apply Hle. apply list_elem_of_In. apply in_map.
    apply list_elem_of_In. exact Ha.
Qed.

(** Shapes and lengths of the views computed by [shifted_views] from
    sequences that are not empty. *)
Lemma shifted_views_shapes (seqs : list (list Z)) (pad : Z) prev tgt lens :
  shifted_views (map tensor1 seqs) pad = ok (prev, tgt, lens) →
  Forall (fun S => S ≠ []) seqs →
  batch_dim prev = Some (length seqs) ∧
  batch_dim tgt = Some (length seqs) ∧
  batch_dim lens = Some (length seqs) ∧
  seq_dim_is_max prev lens ∧
  seq_dim_is_max tgt lens ∧
  lengths_of (map tensor1 seqs) 1 lens.
Proof.
  intros Hv Hnonempty.
  assert (Hne : seqs ≠ []) by (intros ->; discriminate).
  destruct (shifted_views_tensor1 seqs pad Hne) as (L & HL & Heq).
  rewrite Heq in Hv. inversion Hv; subst prev tgt lens; clear Hv Heq.
  assert (Hmax : is_max_of (Z.of_nat L)
                   (map (fun S : list Z => (Z.of_nat (length S) - 1)%Z) seqs)).
  { apply (is_max_of_map (fun S => length S - 1)); [|exact HL].
    intros S HS. rewrite Forall_forall in Hnonempty.
    specialize (Hnonempty _ HS). destruct S; [congruence|]. simpl length. lia. }
  unfold batch_dim, seq_dim_is_max. cbn [shape head tensor1 data].
  rewrite length_map.
  split; [reflexivity|]. split; [reflexivity|]. split; [reflexivity|].
  split; [exists L; split; [reflexivity|exact Hmax]|].
  split; [exists L; split; [reflexivity|exact Hmax]|].
  intros i t Hi. rewrite lookup_map in Hi.
  destruct (seqs !! i) as [S|] eqn:HS; [|discriminate].
  inversion Hi; subst t. exists (length S). split; [reflexivity|].
  cbn [data tensor1]. rewrite lookup_map, HS. reflexivity.
Qed.

(** ** Tokenized targets *)

Section Tokenized.
Variable self : UnitYDataLoader.

Lemma get_tokenized_target_text_ok_inv sample σ t σ' :
  _get_tokenized_target_text self sample σ = ok (t, σ') →
  ∃ tokens,
    t = tensor1 (tokens ++ [eos_idx (text_vocab_info (text_tokenizer self))]).
Proof.
  unfold _get_tokenized_target_text. intros H.
  apply rbind_ok_inv in H as (σ1 & _ & H).
  destruct (text_encoders_per_lang σ1 !! lang (target sample)) as [enc|];
    [|discriminate].
  apply rbind_ok_inv in H as (tokens & _ & H). inversion H; subst. eauto.
Qed.

Lemma get_tokenized_units_ok_inv sample σ o σ' :
  _get_tokenized_units self sample σ = ok (o, σ') →
  (units (target sample) = None ∧ o = None) ∨
  (∃ us tokens,
     units (target sample) = Some us ∧
     o = Some (tensor1 (tokens ++
                        [eos_idx (unit_vocab_info (unit_tokenizer self))]))).
Proof.
  unfold _get_tokenized_units. intros H.
  destruct (units (target sample)) as [us|].
  - right. apply rbind_ok_inv in H as (σ1 & _ & H).
    destruct (unit_encoders_per_lang σ1 !! lang (target sample)) as [enc|];
      [|discriminate].
    apply rbind_ok_inv in H as (tokens & _ & H). inversion H; subst. eauto.
  - left. inversion H; auto.
Qed.

(** The tokenized texts of a batch are one-dimensional and not empty. *)
Lemma tokenized_texts_tensor1 samples σ texts σ' :
  mapM (_get_tokenized_target_text self) samples σ = ok (texts, σ') →
  length texts = length samples ∧
  texts = map tensor1 (map data texts) ∧
  Forall (fun S : list Z => S ≠ []) (map data texts).
Proof.
  intros H.
  apply (mapM_ok_Forall2 _ (fun (_ : LangPairSample) (t : Tensor Z) =>
           t = tensor1 (data t) ∧ data t ≠ [])) in H.
  - split; [symmetry; eapply Forall2_length; eauto|].
    induction H as [|s t ss ts [Ht Hd] _ [IH1 IH2]].
    + split; [reflexivity|constructor].
    + split; [simpl; rewrite <- Ht, <- IH1; reflexivity|].
      constructor; assumption.
  - intros s σ0 t σ0' Hs.
    apply get_tokenized_target_text_ok_inv in Hs as (tokens & ->).
    split; [reflexivity|]. cbn [tensor1 data]. destruct tokens; discriminate.
Qed.

(** The tokenized units of a batch: an entry is absent exactly when the
    sample has no units, and the present ones are one-dimensional and not
    empty. *)
Lemma tokenized_units_spec samples σ ulr σ' :
  mapM (_get_tokenized_units self) samples σ = ok (ulr, σ') →
  Forall2 (fun s o => is_None o = is_None (units (target s)) ∧
                      ∀ t, o = Some t → t = tensor1 (data t) ∧ data t ≠ [])
          samples ulr.
Proof.
  apply mapM_ok_Forall2. intros s σ0 o σ0' Hs.
  apply get_tokenized_units_ok_inv in Hs as [[Hu ->]|(us & tokens & Hu & ->)];
    rewrite Hu.
  - split; [reflexivity|]. intros t Ht; discriminate.
  - split; [reflexivity|]. intros t Ht. inversion Ht; subst.
    split; [reflexivity|]. cbn [tensor1 data]. destruct tokens; discriminate.
Qed.
End Tokenized.

Lemma existsb_is_None_false {A} (l : list (option A)) :
  existsb is_None l = false → l = map Some (omap id l).
Proof.
  induction l as [|[a|] l IH]; intros H.
  - reflexivity.
  - change (omap id (Some a :: l)) with (a :: omap id l).
    cbn [map]. f_equal. apply IH. exact H.
  - discriminate.
Qed.

(** ** Collate calls *)

Section Collate.
Variable lib : Library.
Variable self : UnitYDataLoader.


(** C6. When every feature matrix of the samples left by the duration
    filter holds a NaN the collate call ends in an assertion error, and a
    collate call that returns a batch has kept at least one sample: the
    samples whose matrix is free of NaN, with no sample put back. *)
Theorem nan_filter_fatal_when_empty raw σ samples0 samples1 all_fbs :
  mapR (from_json lib) raw = ok samples0 →
  filter_long_audio lib self samples0 = ok samples1 →
  mapR (_get_source_fbank lib self) samples1 = ok all_fbs →
  (Forall (fun m => any_isnan m = true) all_fbs →
     _prepare_batch lib self raw σ = raise AssertionError) ∧
  (∀ b σ', _prepare_batch lib self raw σ = ok (b, σ') →
     ∃ kept fbs,
       surviving lib self raw = ok (kept, fbs) ∧
       kept ≠ [] ∧
       kept = zip_filter_not samples1 (map any_isnan all_fbs)).
Proof.
  intros H0 H1 H2. split.
  - intros Hall. unfold _prepare_batch, mbindM, liftR.
    rewrite H0, H1, (filter_nans_all_nan _ _ _ _ H2 Hall). reflexivity.
  - intros b σ' H.
    apply prepare_batch_ok_inv in H
      as (kept & fbs & padded & sizes & texts & σ1 & tv & ulr & uv &
          Hsurv & _).
    exists kept, fbs. split; [exact Hsurv|].
    apply surviving_ok_inv in Hsurv as (s0 & s1 & E0 & E1 & Hnan).
    rewrite H0 in E0. inversion E0; subst s0.
    rewrite H1 in E1. inversion E1; subst s1.
    apply filter_nans_ok_inv in Hnan as (fbs' & E2 & -> & _ & Hne & _).
    rewrite H2 in E2. inversion E2; subst fbs'. auto.
Qed.

(** C3. In a batch that was assembled, the three unit tensors are absent
    together as soon as one kept sample has no units, and present together
    when every kept sample has units. *)
Theorem units_absent_jointly raw σ b σ' :
  _prepare_batch lib self raw σ = ok (b, σ') →
  ∃ kept fbs,
    surviving lib self raw = ok (kept, fbs) ∧
    (Exists (fun s => units (target s) = None) kept →
       target_tokens (text_to_units b) = None ∧
       prev_output_tokens (text_to_units b) = None ∧
       target_lengths (text_to_units b) = None) ∧
    (Forall (fun s => units (target s) ≠ None) kept →
       is_Some (target_tokens (text_to_units b)) ∧
       is_Some (prev_output_tokens (text_to_units b)) ∧
       is_Some (target_lengths (text_to_units b))).
Proof.
  intros H.
  apply prepare_batch_ok_inv in H
    as (kept & fbs & padded & sizes & texts & σ1 & tv & ulr & uv &
        Hsurv & _ & _ & _ & _ & Hunits & Huv & ->).
  exists kept, fbs. split; [exact Hsurv|].
  apply tokenized_units_spec in Hunits.
  assert (Hex : existsb is_None ulr = existsb (fun s => is_None (units (target s))) kept).
  { clear Huv Hsurv. induction Hunits as [|s o ss os [Ho _] _ IH]; [reflexivity|].
    simpl. rewrite Ho, IH. reflexivity. }
  cbn [text_to_units target_tokens prev_output_tokens target_lengths].
  split.
  - intros Hsome.
    assert (Ht : existsb is_None ulr = true).
    { rewrite Hex. apply existsb_exists.
      apply Exists_exists in Hsome as (s & Hs & Hu).
      exists s. split; [apply list_elem_of_In; exact Hs|].
      rewrite Hu. reflexivity. }
    rewrite Ht in Huv. subst uv. auto.
  - intros Hall.
    assert (Hf : existsb is_None ulr = false).
    { rewrite Hex. apply not_true_is_false. intros Ht.
      apply existsb_exists in Ht as (s & Hs & Hu).
      rewrite Forall_forall in Hall. apply list_elem_of_In in Hs.
      specialize (Hall _ Hs). destruct (units (target s)); [discriminate|].
      congruence. }
    rewrite Hf in Huv. destruct Huv as (v & _ & ->).
    cbn. repeat split; eexists; reflexivity.
Qed.
End Collate.

(** ** Alignment and lengths of the assembled tensors *)

Lemma tensor1_list {A} (ts : list (Tensor A)) :
  Forall (fun t => t = tensor1 (data t)) ts → ts = map tensor1 (map data ts).
Proof.
  induction 1 as [|t ts Ht _ IH]; [reflexivity|].
  simpl. rewrite <- Ht, <- IH. reflexivity.
Qed.

Lemma tokenized_units_present (self : UnitYDataLoader) samples σ ulr σ' :
  mapM (_get_tokenized_units self) samples σ = ok (ulr, σ') →
  existsb is_None ulr = false →
  ulr = map Some (omap id ulr) ∧
  length (omap id ulr) = length samples ∧
  omap id ulr = map tensor1 (map data (omap id ulr)) ∧
  Forall (fun S : list Z => S ≠ []) (map data (omap id ulr)).
Proof.
  intros Hu Hex. apply tokenized_units_spec in Hu.
  pose proof (existsb_is_None_false _ Hex) as Heq.
  split; [exact Heq|]. revert Hu. rewrite Heq at 1.
  generalize (omap id ulr) as us. clear. intros us Hu.
  assert (Hall : Forall (fun t : Tensor Z => t = tensor1 (data t) ∧ data t ≠ []) us
                 ∧ length us = length samples).
  { revert samples Hu. induction us as [|t us IH]; intros samples Hu.
    - inversion Hu; subst. split; [constructor|reflexivity].
    - inversion Hu as [|s o ss os [_ Ho] Hrest]; subst.
      destruct (IH _ Hrest) as [IH1 IH2]. split.
      + constructor; [apply Ho; reflexivity|exact IH1].
      + simpl. rewrite IH2. reflexivity. }
  destruct Hall as [Hall Hlen]. split; [exact Hlen|]. split.
  - apply tensor1_list. eapply Forall_impl; [exact Hall|]. intros t [H _]; exact H.
  - apply Forall_map. eapply Forall_impl; [exact Hall|]. intros t [_ H]; exact H.
Qed.

(** The source side of a batch: one row and one length per feature matrix,
    the lengths are the leading lengths of the matrices, and the rows are as
    long as the longest matrix. *)
Lemma source_side (dt : dtype) (fbs : list (Tensor spec_float))
    (v : spec_float) padded sizes :
  _batch_tensors fbs v = ok padded →
  mapR shape0 fbs = ok sizes →
  batch_dim (tensor_to dt padded) = Some (length fbs) ∧
  batch_dim (tensor1 (map Z.of_nat sizes)) = Some (length fbs) ∧
  seq_dim_is_max (tensor_to dt padded) (tensor1 (map Z.of_nat sizes)) ∧
  lengths_of fbs 0 (tensor1 (map Z.of_nat sizes)).
Proof.
  intros Hb Hs.
  apply batch_tensors_ok_inv in Hb as (sizes' & L & rest & Hne & Hsh & HL & Hshape & _).
  assert (sizes' = sizes) as ->.
  { apply mapR_ok_Forall2 in Hs. clear HL Hne Hshape. revert sizes Hs.
    induction Hsh as [|t n ts ns Ht _ IH]; intros sizes Hs.
    - inversion Hs; reflexivity.
    - inversion Hs as [|? m ? ms Hm Hms]; subst.
      unfold shape0 in Hm. rewrite Ht in Hm. inversion Hm; subst.
      f_equal. apply IH. exact Hms. }
  pose proof (Forall2_length _ _ _ Hsh) as Hlen.
  unfold batch_dim, seq_dim_is_max. cbn [tensor_to tensor1 shape data head].
  rewrite Hshape, length_map, <- Hlen. cbn [head].
  split; [reflexivity|]. split; [reflexivity|]. split.
  - exists L. split; [reflexivity|].
    apply (is_max_of_map (fun n => n) Z.of_nat); [reflexivity|].
    rewrite map_id. exact HL.
  - intros i t Hi.
    destruct (Forall2_lookup_l _ _ _ _ _ Hsh Hi) as (n & Hn & Ht).
    exists n. split; [unfold shape0; rewrite Ht; reflexivity|].
    cbn [data tensor1]. rewrite lookup_map, Hn. cbn. rewrite Z.sub_0_r. reflexivity.
Qed.

Section CollateShapes.
Variable lib : Library.
Variable self : UnitYDataLoader.

(** C4. Each tokenized text of a batch, and each tokenized unit sequence
    when the unit tensors are present, is a one-dimensional sequence [S]
    whose row of previous-output tokens is [S] without its last element,
    whose row of target tokens is [S] without its first element, both up to
    padding on the right, and whose recorded length is the length of [S]
    minus one. *)
Theorem shift_invariant raw σ b σ' :
  _prepare_batch lib self raw σ = ok (b, σ') →
  ∃ kept fbs texts σ1 ulr,
    surviving lib self raw = ok (kept, fbs) ∧
    mapM (_get_tokenized_target_text self) kept σ = ok (texts, σ1) ∧
    mapM (_get_tokenized_units self) kept σ1 = ok (ulr, σ') ∧
    (∃ prev tgt lens,
       prev_output_tokens (speech_to_text b) = Some prev ∧
       target_tokens (speech_to_text b) = Some tgt ∧
       target_lengths (speech_to_text b) = Some lens ∧
       ∀ i t, texts !! i = Some t →
         t = tensor1 (data t) ∧
         shifted_row (data t)
           (pad_idx (text_vocab_info (text_tokenizer self))) i prev tgt lens) ∧
    (∀ prev tgt lens,
       prev_output_tokens (text_to_units b) = Some prev →
       target_tokens (text_to_units b) = Some tgt →
       target_lengths (text_to_units b) = Some lens →
       ∀ i t, ulr !! i = Some (Some t) →
         t = tensor1 (data t) ∧
         shifted_row (data t)
           (pad_idx (unit_vocab_info (unit_tokenizer self))) i prev tgt lens).
Proof.
  intros H.
  apply prepare_batch_ok_inv in H
    as (kept & fbs & padded & sizes & texts & σ1 & tv & ulr & uv &
        Hsurv & _ & _ & Htexts & Htv & Hunits & Huv & ->).
  exists kept, fbs, texts, σ1, ulr.
  do 3 (split; [assumption|]). split.
  - destruct tv as [[prev tgt] lens]. exists prev, tgt, lens.
    do 3 (split; [reflexivity|]).
    destruct (tokenized_texts_tensor1 _ _ _ _ _ Htexts) as (_ & Heq & _).
    rewrite Heq in Htv. intros i t Hi.
    assert (Ht : t = tensor1 (data t)).
    { rewrite Heq in Hi. rewrite lookup_map in Hi.
      destruct (map data texts !! i); inversion Hi. reflexivity. }
    split; [exact Ht|].
    eapply shifted_views_rows; [exact Htv|].
    rewrite lookup_map, Hi. reflexivity.
  - intros prev tgt lens Hp Ht Hl i t Hi.
    cbn [text_to_units target_tokens prev_output_tokens target_lengths] in *.
    destruct (existsb is_None ulr) eqn:Hex.
    { subst uv. discriminate. }
    destruct Huv as ([[prev' tgt'] lens'] & Hv & ->).
    cbn in Hp, Ht, Hl. inversion Hp; inversion Ht; inversion Hl; subst.
    destruct (tokenized_units_present _ _ _ _ _ Hunits Hex)
      as (Hulr & _ & Heq & _).
    assert (Hi' : omap id ulr !! i = Some t).
    { rewrite Hulr in Hi. rewrite lookup_map in Hi.
      destruct (omap id ulr !! i); inversion Hi. reflexivity. }
    rewrite Heq in Hv.
    assert (Hte : t = tensor1 (data t)).
    { rewrite Heq in Hi'. rewrite lookup_map in Hi'.
      destruct (map data (omap id ulr) !! i); inversion Hi'. reflexivity. }
    split; [exact Hte|].
    eapply shifted_views_rows; [exact Hv|].
    rewrite lookup_map, Hi'. reflexivity.
Qed.

(** C5. In a batch that was assembled, the five tensors of the
    speech-to-text part and the unit tensors that are present all have the
    number of kept samples as their leading dimension. *)
Theorem batch_dims_aligned raw σ b σ' :
  _prepare_batch lib self raw σ = ok (b, σ') →
  ∃ kept fbs src sl tt pt tl,
    surviving lib self raw = ok (kept, fbs) ∧
    speech_to_text b =
      mkSeqsBatch (Some src) (Some sl) (Some tt) (Some pt) (Some tl) ∧
    batch_dim src = Some (length kept) ∧
    batch_dim sl = Some (length kept) ∧
    batch_dim tt = Some (length kept) ∧
    batch_dim pt = Some (length kept) ∧
    batch_dim tl = Some (length kept) ∧
    src_tokens (text_to_units b) = None ∧
    src_lengths (text_to_units b) = None ∧
    (∀ t, target_tokens (text_to_units b) = Some t →
          batch_dim t = Some (length kept)) ∧
    (∀ t, prev_output_tokens (text_to_units b) = Some t →
          batch_dim t = Some (length kept)) ∧
    (∀ t, target_lengths (text_to_units b) = Some t →
          batch_dim t = Some (length kept)).
Proof.
  intros H.
  apply prepare_batch_ok_inv in H
    as (kept & fbs & padded & sizes & texts & σ1 & tv & ulr & uv &
        Hsurv & Hpad & Hsizes & Htexts & Htv & Hunits & Huv & ->).
  destruct tv as [[prev tgt] lens].
  exists kept, fbs, (tensor_to (float_dtype (batching_config self)) padded),
    (tensor1 (map Z.of_nat sizes)), tgt, prev, lens.
  split; [exact Hsurv|]. split; [reflexivity|].
  assert (Hlen : length fbs = length kept).
  { apply surviving_ok_inv in Hsurv as (s0 & s1 & _ & _ & Hnan).
    apply filter_nans_ok_inv in Hnan as (all_fbs & _ & _ & _ & _ & Hfb & _).
    symmetry. eapply Forall2_length; eauto. }
  destruct (source_side (float_dtype (batching_config self)) _ _ _ _ Hpad Hsizes)
    as (Hd1 & Hd2 & _ & _).
  rewrite Hlen in Hd1, Hd2.
  destruct (tokenized_texts_tensor1 _ _ _ _ _ Htexts) as (Htl & Heq & Hnonempty).
  rewrite Heq in Htv.
  destruct (shifted_views_shapes _ _ _ _ _ Htv Hnonempty)
    as (Hp & Ht & Hl & _ & _ & _).
  rewrite length_map, Htl in Hp, Ht, Hl.
  do 5 (split; [assumption|]).
  cbn [text_to_units src_tokens src_lengths target_tokens prev_output_tokens
       target_lengths].
  split; [reflexivity|]. split; [reflexivity|].
  destruct (existsb is_None ulr) eqn:Hex.
  - subst uv. repeat split; intros t Ht'; discriminate.
  - destruct Huv as ([[prev' tgt'] lens'] & Hv & ->).
    destruct (tokenized_units_present _ _ _ _ _ Hunits Hex)
      as (_ & Hul & Hueq & Hune).
    rewrite Hueq in Hv.
    destruct (shifted_views_shapes _ _ _ _ _ Hv Hune)
      as (Hp' & Ht' & Hl' & _ & _ & _).
    rewrite length_map, Hul in Hp', Ht', Hl'.
    repeat split; intros t Hsome; cbn in Hsome; inversion Hsome; subst;
      assumption.
Qed.

(** C10. The length vectors of a batch hold unpadded lengths: the source
    lengths are the leading lengths of the kept feature matrices, the target
    lengths are the lengths of the tokenized sequences minus one, and the
    sequence dimension of each padded tensor is the largest entry of its
    length vector. *)
Theorem lengths_unpadded raw σ b σ' :
  _prepare_batch lib self raw σ = ok (b, σ') →
  ∃ kept fbs texts σ1 ulr src sl tt pt tl,
    surviving lib self raw = ok (kept, fbs) ∧
    mapM (_get_tokenized_target_text self) kept σ = ok (texts, σ1) ∧
    mapM (_get_tokenized_units self) kept σ1 = ok (ulr, σ') ∧
    speech_to_text b =
      mkSeqsBatch (Some src) (Some sl) (Some tt) (Some pt) (Some tl) ∧
    lengths_of fbs 0 sl ∧ seq_dim_is_max src sl ∧
    lengths_of texts 1 tl ∧ seq_dim_is_max pt tl ∧ seq_dim_is_max tt tl ∧
    (∀ pu tu lu,
       prev_output_tokens (text_to_units b) = Some pu →
       target_tokens (text_to_units b) = Some tu →
       target_lengths (text_to_units b) = Some lu →
       ulr = map Some (omap id ulr) ∧
       lengths_of (omap id ulr) 1 lu ∧
       seq_dim_is_max pu lu ∧ seq_dim_is_max tu lu).
Proof.
  intros H.
  apply prepare_batch_ok_inv in H
    as (kept & fbs & padded & sizes & texts & σ1 & tv & ulr & uv &
        Hsurv & Hpad & Hsizes & Htexts & Htv & Hunits & Huv & ->).
  destruct tv as [[prev tgt] lens].
  exists kept, fbs, texts, σ1, ulr,
    (tensor_to (float_dtype (batching_config self)) padded),
    (tensor1 (map Z.of_nat sizes)), tgt, prev, lens.
  do 3 (split; [assumption|]). split; [reflexivity|].
  destruct (source_side (float_dtype (batching_config self)) _ _ _ _ Hpad Hsizes)
    as (_ & _ & Hmax & Hlens).
  split; [exact Hlens|]. split; [exact Hmax|].
  destruct (tokenized_texts_tensor1 _ _ _ _ _ Htexts) as (Htl & Heq & Hnonempty).
  rewrite Heq in Htv.
  destruct (shifted_views_shapes _ _ _ _ _ Htv Hnonempty)
    as (_ & _ & _ & Hmp & Hmt & Hlt).
  rewrite <- Heq in Hlt.
  do 3 (split; [assumption|]).
  intros pu tu lu Hp Ht Hl.
  cbn [text_to_units target_tokens prev_output_tokens target_lengths] in *.
  destruct (existsb is_None ulr) eqn:Hex.
  { subst uv. discriminate. }
  destruct Huv as ([[prev' tgt'] lens'] & Hv & ->).
  cbn in Hp, Ht, Hl. inversion Hp; inversion Ht; inversion Hl; subst.
  destruct (tokenized_units_present _ _ _ _ _ Hunits Hex)
    as (Hulr & _ & Hueq & Hune).
  rewrite Hueq in Hv.
  destruct (shifted_views_shapes _ _ _ _ _ Hv Hune)
    as (_ & _ & _ & Hmp' & Hmt' & Hlt').
  rewrite <- Hueq in Hlt'. auto.
Qed.
End CollateShapes.

(** ** The layout of the waveform *)

Lemma length_bind_fixed {A B} (f : A → list B) (K : nat) (l : list A) :
  (∀ a, a ∈ l → length (f a) = K) → length (l ≫= f) = length l * K.
Proof.
  induction l as [|a l IH]; intros Hf; [reflexivity|].
  rewrite bind_cons, length_app, Hf by apply list_elem_of_here.
  rewrite IH; [simpl; lia|].
  intros a' Ha'. apply Hf. apply list_elem_of_further. exact Ha'.
Qed.

Lemma lookup_bind_fixed {A B} (f : A → list B) (K : nat) (l : list A) p q x :
  (∀ a, a ∈ l → length (f a) = K) →
  l !! p = Some x → q < K →
  (l ≫= f) !! (p * K + q) = f x !! q.
Proof.
  revert p. induction l as [|a l IH]; intros p Hf Hp Hq; [destruct p; discriminate|].
  rewrite bind_cons. destruct p as [|p]; simpl in Hp.
  - inversion Hp; subst. apply lookup_app_l.
    rewrite Hf by apply list_elem_of_here. exact Hq.
  - rewrite lookup_app_r by (rewrite Hf by apply list_elem_of_here; simpl; lia).
    rewrite Hf by apply list_elem_of_here.
    replace (S p * K + q - K) with (p * K + q) by (simpl; lia).
    apply IH; [|exact Hp|exact Hq].
    intros a' Ha'. apply Hf. apply list_elem_of_further. exact Ha'.
Qed.

(** [transpose01] on a matrix: the shape is swapped and element [(j, i)] of
    the result is element [(i, j)] of the argument. *)
Lemma transpose01_matrix {A} (t : Tensor A) (r c : nat) :
  shape t = [r; c] →
  shape (transpose01 t) = [c; r] ∧
  (wf_tensor t →
   ∀ i j, i < r → j < c →
     data (transpose01 t) !! (j * r + i) = data t !! (i * c + j)).
Proof.
  intros Hs. unfold transpose01. rewrite Hs. cbn [shape data numel foldr].
  split; [reflexivity|]. intros Hwf i j Hi Hj.
  unfold wf_tensor in Hwf. rewrite Hs in Hwf. cbn [numel foldr] in Hwf.
  set (cell := fun j i : nat => take 1 (drop ((i * c + j) * 1) (data t))).
  assert (Hcell : ∀ j' i', i' ∈ seq 0 r → j' < c → length (cell j' i') = 1).
  { intros j' i' Hi' Hj'. apply elem_of_seq in Hi'. unfold cell.
    rewrite length_take, length_drop. nia. }
  change (data (mkTensor [c; r] (seq 0 c ≫= fun j => seq 0 r ≫= cell j))
            !! (j * r + i) = data t !! (i * c + j)).
  cbn [data].
  rewrite (lookup_bind_fixed _ r _ j i j).
  - replace i with (i * 1 + 0) at 1 by lia.
    rewrite (lookup_bind_fixed _ 1 _ i 0 i).
    + unfold cell. rewrite lookup_take_lt by lia. rewrite lookup_drop.
      f_equal. lia.
    + intros i' Hi'. apply Hcell; assumption.
    + apply lookup_seq. lia.
    + lia.
  - intros j' Hj'. apply elem_of_seq in Hj'.
    rewrite (length_bind_fixed _ 1).
    + rewrite length_seq. lia.
    + intros i' Hi'. apply Hcell; [assumption|lia].
  - apply lookup_seq. lia.
  - exact Hi.
Qed.

Section Layout.
Variable lib : Library.
Variable self : UnitYDataLoader.

(** C7, as amended. For a waveform loaded at the expected sample rate the
    features are those of the waveform in its normalised layout.  A
    one-dimensional waveform gets a trailing dimension of size one, a matrix
    whose first dimension is at most two is transposed, a matrix whose first
    dimension is larger is passed on as it is, and the assertion fails
    exactly when the waveform has neither one nor two dimensions. *)
Theorem source_fbank_layout sample wav :
  torchaudio_load lib (audio_local_path (source sample)) = ok (wav, SAMPLE_RATE) →
  _get_source_fbank lib self sample =
    rbind (channel_layout wav)
      (fun w => WaveformToFbankConverter lib (_fbank_extract_params self)
                  w SAMPLE_RATE) ∧
  (channel_layout wav = raise AssertionError ↔
     length (shape wav) ≠ 1 ∧ length (shape wav) ≠ 2) ∧
  (∀ e, channel_layout wav = raise e → e = AssertionError) ∧
  (∀ n, shape wav = [n] →
     channel_layout wav = ok (unsqueeze_last wav) ∧
     shape (unsqueeze_last wav) = [n; 1] ∧
     data (unsqueeze_last wav) = data wav) ∧
  (∀ r c, shape wav = [r; c] → r ≤ 2 →
     channel_layout wav = ok (transpose01 wav) ∧
     shape (transpose01 wav) = [c; r] ∧
     (wf_tensor wav → ∀ i j, i < r → j < c →
        data (transpose01 wav) !! (j * r + i) = data wav !! (i * c + j))) ∧
  (∀ r c, shape wav = [r; c] → 2 < r → channel_layout wav = ok wav).
Proof.
  intros Hload. split.
  { unfold _get_source_fbank. rewrite Hload. cbn [rbind fst snd].
    rewrite Z.eqb_refl. reflexivity. }
  unfold channel_layout, shape0.
  destruct (shape wav) as [|n [|c [|d rest]]] eqn:Hs; cbn.
  - split; [split; [intros _; split; discriminate|reflexivity]|].
    split; [intros e He; inversion He; reflexivity|].
    repeat split; intros; discriminate.
  - split; [split; [discriminate|intros [H _]; congruence]|].
    split; [discriminate|].
    split.
    + intros n' Hn'. inversion Hn'; subst.
      unfold unsqueeze_last. rewrite Hs. auto.
    + split; intros; discriminate.
  - split; [split; [destruct (n <=? 2); discriminate|intros [_ H]; congruence]|].
    split; [destruct (n <=? 2); discriminate|].
    split; [intros; discriminate|]. split.
    + intros r c' Hrc Hr. inversion Hrc; subst.
      destruct (Nat.leb_spec r 2) as [_|Hgt]; [|lia].
      split; [reflexivity|]. apply transpose01_matrix. exact Hs.
    + intros r c' Hrc Hr. inversion Hrc; subst.
      destruct (Nat.leb_spec r 2) as [Hle|_]; [lia|reflexivity].
  - split; [split; [intros _; split; discriminate|reflexivity]|].
    split; [intros e He; inversion He; reflexivity|].
    repeat split; intros; discriminate.
Qed.
End Layout.

(** ** Seeds of the workers *)


(** * The properties on the small loader *)

Section DemoRuns.
Import Demo.

(** The example of the specification: of three samples the second is too
    long and the third has NaN features, so the batch holds the first sample
    alone, with its unit tensors. *)
Example end_to_end :
  surviving lib self [sample_a; sample_b; sample_c] =
    ok ([sample_a],
        match _get_source_fbank lib self sample_a with
        | ok m => [m]
        | raise _ => []
        end) ∧
  ∃ b σ',
    _prepare_batch lib self [sample_a; sample_b; sample_c] no_encoders =
      ok (b, σ') ∧
    (shape <$> src_tokens (speech_to_text b)) = Some [1; 4; 80] ∧
    prev_output_tokens (speech_to_text b) =
      Some (mkTensor [1; 4] [3; 256003; 104; 105]%Z) ∧
    target_tokens (speech_to_text b) =
      Some (mkTensor [1; 4] [256003; 104; 105; 3]%Z) ∧
    target_lengths (speech_to_text b) = Some (tensor1 [4%Z]) ∧
    target_lengths (text_to_units b) = Some (tensor1 [6%Z]).
Proof.
  split; [vm_compute; reflexivity|].
  destruct (_prepare_batch lib self [sample_a; sample_b; sample_c] no_encoders)
    as [[b σ']|e] eqn:H; [|vm_compute in H; discriminate].
  exists b, σ'. split; [reflexivity|].
  vm_compute in H. inversion H; subst. vm_compute. auto.
Qed.
End DemoRuns.



Lemma filter_long_audio_spec_witness :
  mapR (_is_long_src_audio Demo.lib Demo.self)
    [Demo.sample_a; Demo.sample_b; Demo.sample_c] = ok [false; true; false] ∧
  filter_long_audio Demo.lib Demo.self
    [Demo.sample_a; Demo.sample_b; Demo.sample_c] =
    ok [Demo.sample_a; Demo.sample_c] ∧
  filter_long_audio Demo.lib Demo.self [Demo.sample_b; Demo.sample_b] =
    ok [Demo.sample_b].
Proof.
  assert (H1 : mapR (_is_long_src_audio Demo.lib Demo.self)
                 [Demo.sample_a; Demo.sample_b; Demo.sample_c] =
               ok [false; true; false]) by (vm_compute; reflexivity).
  assert (H2 : mapR (_is_long_src_audio Demo.lib Demo.self)
                 [Demo.sample_b; Demo.sample_b] = ok [true; true])
    by (vm_compute; reflexivity).
  split; [exact H1|]. split.
  - destruct (filter_long_audio_spec Demo.lib Demo.self _ _ _ H1)
      as (kept & Hk & _ & Hsome & _).
    rewrite Hk. f_equal.
    destruct Hsome as (-> & _).
    + apply Exists_cons_hd. vm_compute. reflexivity.
    + vm_compute. reflexivity.
  - destruct (filter_long_audio_spec Demo.lib Demo.self _ _ _ H2)
      as (kept & Hk & _ & _ & Hall).
    rewrite Hk. f_equal. apply Hall.
    repeat constructor.
Defined.

Lemma nan_filter_fatal_when_empty_witness :
  mapR (from_json Demo.lib) [Demo.sample_b; Demo.sample_c] =
    ok [Demo.sample_b; Demo.sample_c] ∧
  filter_long_audio Demo.lib Demo.self [Demo.sample_b; Demo.sample_c] =
    ok [Demo.sample_c] ∧
  _prepare_batch Demo.lib Demo.self [Demo.sample_b; Demo.sample_c]
    Demo.no_encoders = raise AssertionError.
Proof.
  assert (H0 : mapR (from_json Demo.lib) [Demo.sample_b; Demo.sample_c] =
               ok [Demo.sample_b; Demo.sample_c]) by reflexivity.
  assert (H1 : filter_long_audio Demo.lib Demo.self [Demo.sample_b; Demo.sample_c] =
               ok [Demo.sample_c]) by (vm_compute; reflexivity).
  destruct (mapR (_get_source_fbank Demo.lib Demo.self) [Demo.sample_c])
    as [all_fbs|e] eqn:H2; [|vm_compute in H2; discriminate].
  split; [exact H0|]. split; [exact H1|].
  apply (nan_filter_fatal_when_empty Demo.lib Demo.self _ Demo.no_encoders
           _ _ _ H0 H1 H2).
  vm_compute in H2. inversion H2; subst. repeat constructor.
Defined.

Lemma units_absent_jointly_witness :
  ∃ b σ' kept fbs,
    _prepare_batch Demo.lib Demo.self [Demo.sample_a; Demo.sample_e]
      Demo.no_encoders = ok (b, σ') ∧
    surviving Demo.lib Demo.self [Demo.sample_a; Demo.sample_e] = ok (kept, fbs) ∧
    target_tokens (text_to_units b) = None ∧
    prev_output_tokens (text_to_units b) = None ∧
    target_lengths (text_to_units b) = None.
Proof.
  destruct (_prepare_batch Demo.lib Demo.self [Demo.sample_a; Demo.sample_e]
              Demo.no_encoders)
    as [[b σ']|e] eqn:H; [|vm_compute in H; discriminate].
  destruct (units_absent_jointly _ _ _ _ _ _ H) as (kept & fbs & Hs & Hnone & _).
  exists b, σ', kept, fbs. split; [reflexivity|]. split; [exact Hs|].
  apply Hnone. vm_compute in Hs. inversion Hs; subst.
  apply Exists_cons_tl, Exists_cons_hd. reflexivity.
Defined.

Lemma shift_invariant_witness :
  ∃ b σ' prev tgt lens,
    _prepare_batch Demo.lib Demo.self [Demo.sample_a; Demo.sample_d]
      Demo.no_encoders = ok (b, σ') ∧
    prev_output_tokens (speech_to_text b) = Some prev ∧
    target_tokens (speech_to_text b) = Some tgt ∧
    target_lengths (speech_to_text b) = Some lens ∧
    shifted_row [3; 256003; 104; 105; 3]%Z 0 0 prev tgt lens ∧
    shifted_row [3; 256003; 97; 98; 99; 100; 3]%Z 0 1 prev tgt lens.
Proof.
  destruct (_prepare_batch Demo.lib Demo.self [Demo.sample_a; Demo.sample_d]
              Demo.no_encoders)
    as [[b σ']|e] eqn:H; [|vm_compute in H; discriminate].
  destruct (shift_invariant _ _ _ _ _ _ H)
    as (kept & fbs & texts & σ1 & ulr & Hs & Ht & _ &
        (prev & tgt & lens & Hp & Htg & Hl & Hrows) & _).
  exists b, σ', prev, tgt, lens. split; [reflexivity|].
  do 3 (split; [assumption|]).
  vm_compute in Hs. inversion Hs; subst kept fbs; clear Hs.
  vm_compute in Ht. inversion Ht; subst texts σ1; clear Ht.
  split.
  - exact (proj2 (Hrows 0 _ eq_refl)).
  - exact (proj2 (Hrows 1 _ eq_refl)).
Defined.

Lemma batch_dims_aligned_witness :
  ∃ b σ' src sl tt pt tl tu pu lu,
    _prepare_batch Demo.lib Demo.self [Demo.sample_a; Demo.sample_b; Demo.sample_d]
      Demo.no_encoders = ok (b, σ') ∧
    speech_to_text b =
      mkSeqsBatch (Some src) (Some sl) (Some tt) (Some pt) (Some tl) ∧
    text_to_units b = mkSeqsBatch None None (Some tu) (Some pu) (Some lu) ∧
    batch_dim src = Some 2 ∧ batch_dim sl = Some 2 ∧ batch_dim tt = Some 2 ∧
    batch_dim pt = Some 2 ∧ batch_dim tl = Some 2 ∧ batch_dim tu = Some 2 ∧
    batch_dim pu = Some 2 ∧ batch_dim lu = Some 2.
Proof.
  destruct (_prepare_batch Demo.lib Demo.self
              [Demo.sample_a; Demo.sample_b; Demo.sample_d] Demo.no_encoders)
    as [[b σ']|e] eqn:H; [|vm_compute in H; discriminate].
  destruct (batch_dims_aligned _ _ _ _ _ _ H)
    as (kept & fbs & src & sl & tt & pt & tl & Hs & Hb & H1 & H2 & H3 & H4 & H5 &
        _ & _ & H6 & H7 & H8).
  assert (Hk : length kept = 2).
  { vm_compute in Hs. inversion Hs; subst. reflexivity. }
  rewrite Hk in *.
  destruct (text_to_units b) as [usrc usl utt upt utl] eqn:Hu.
  assert (Hshape : usrc = None ∧ usl = None ∧ is_Some utt ∧ is_Some upt ∧
                   is_Some utl).
  { vm_compute in H. inversion H; subst b. cbn in Hu. inversion Hu; subst.
    repeat split; eexists; reflexivity. }
  destruct Hshape as (-> & -> & [tu ->] & [pu ->] & [lu ->]).
  exists b, σ', src, sl, tt, pt, tl, tu, pu, lu.
  split; [reflexivity|]. split; [exact Hb|]. split; [exact Hu|].
  do 5 (split; [assumption|]).
  split; [apply H6; reflexivity|]. split; [apply H7; reflexivity|].
  apply H8; reflexivity.
Defined.

Lemma lengths_unpadded_witness :
  ∃ b σ' src sl tt pt tl,
    _prepare_batch Demo.lib Demo.self [Demo.sample_a; Demo.sample_d]
      Demo.no_encoders = ok (b, σ') ∧
    speech_to_text b =
      mkSeqsBatch (Some src) (Some sl) (Some tt) (Some pt) (Some tl) ∧
    data sl = [4; 4]%Z ∧ data tl = [4; 6]%Z ∧
    seq_dim_is_max src sl ∧ seq_dim_is_max pt tl ∧ seq_dim_is_max tt tl.
Proof.
  destruct (_prepare_batch Demo.lib Demo.self [Demo.sample_a; Demo.sample_d]
              Demo.no_encoders)
    as [[b σ']|e] eqn:H; [|vm_compute in H; discriminate].
  destruct (lengths_unpadded _ _ _ _ _ _ H)
    as (kept & fbs & texts & σ1 & ulr & src & sl & tt & pt & tl &
        _ & _ & _ & Hb & _ & Hm1 & _ & Hm2 & Hm3 & _).
  exists b, σ', src, sl, tt, pt, tl.
  split; [reflexivity|]. split; [exact Hb|].
  assert (Hd : data sl = [4; 4]%Z ∧ data tl = [4; 6]%Z).
  { vm_compute in H. inversion H; subst b. cbn in Hb. inversion Hb; subst.
    split; reflexivity. }
  destruct Hd as [Hd1 Hd2]. auto 10.
Defined.

Lemma source_fbank_layout_witness :
  torchaudio_load Demo.lib (audio_local_path (source Demo.sample_a)) =
    ok (mkTensor [1; 4] [Demo.f32 1; Demo.f32 2; Demo.f32 3; Demo.f32 4],
        SAMPLE_RATE) ∧
  channel_layout (mkTensor [1; 4] [Demo.f32 1; Demo.f32 2; Demo.f32 3; Demo.f32 4]) =
    ok (mkTensor [4; 1] [Demo.f32 1; Demo.f32 2; Demo.f32 3; Demo.f32 4]) ∧
  ∃ m, _get_source_fbank Demo.lib Demo.self Demo.sample_a = ok m ∧
       shape m = [4; 80].
Proof.
  assert (Hload : torchaudio_load Demo.lib (audio_local_path (source Demo.sample_a)) =
            ok (mkTensor [1; 4] [Demo.f32 1; Demo.f32 2; Demo.f32 3; Demo.f32 4],
                SAMPLE_RATE)) by reflexivity.
  destruct (source_fbank_layout Demo.lib Demo.self _ _ Hload)
    as (Hfb & _ & _ & _ & Htr & _).
  destruct (Htr 1 4 eq_refl) as (Hl & _); [lia|].
  split; [exact Hload|]. split; [rewrite Hl; reflexivity|].
  rewrite Hfb, Hl. eexists. split; reflexivity.
Defined.

(** C7, as stated, fails: a matrix whose first dimension exceeds two is
    neither one-dimensional nor a matrix with at most two leading channels,
    and it is passed to the converter as it is, with no assertion error. *)
Lemma wide_waveform_not_rejected :
  let wav := mkTensor [3; 2] [Demo.f32 1; Demo.f32 2; Demo.f32 3;
                              Demo.f32 4; Demo.f32 5; Demo.f32 6] in
  torchaudio_load Demo.lib (audio_local_path (source Demo.sample_wide)) =
    ok (wav, SAMPLE_RATE) ∧
  length (shape wav) ≠ 1 ∧
  (∀ r c, shape wav = [r; c] → ¬ r ≤ 2) ∧
  channel_layout wav = ok wav ∧
  (∃ m, _get_source_fbank Demo.lib Demo.self Demo.sample_wide = ok m) ∧
  ¬ (∀ w : Tensor spec_float,
       length (shape w) ≠ 1 →
       (∀ r c, shape w = [r; c] → ¬ r ≤ 2) →
       channel_layout w = raise AssertionError).
Proof.
  intros wav.
  assert (Hmat : ∀ r c, shape wav = [r; c] → ¬ r ≤ 2).
  { intros r c Hs. inversion Hs; subst. lia. }
  split; [reflexivity|]. split; [discriminate|]. split; [exact Hmat|].
  split; [reflexivity|]. split; [eexists; vm_compute; reflexivity|].
  intros Hclaim. specialize (Hclaim wav). discriminate Hclaim; auto.
Qed.

Lemma batch_tensors_aligned_is_stack_witness :
  _batch_tensors [mkTensor [2; 2] [1; 2; 3; 4]%Z; mkTensor [2; 2] [5; 6; 7; 8]%Z]
    0%Z =
    torch_stack [mkTensor [2; 2] [1; 2; 3; 4]%Z; mkTensor [2; 2] [5; 6; 7; 8]%Z] ∧
  torch_stack [mkTensor [2; 2] [1; 2; 3; 4]%Z; mkTensor [2; 2] [5; 6; 7; 8]%Z] =
    ok (mkTensor [2; 2; 2] [1; 2; 3; 4; 5; 6; 7; 8]%Z).
Proof.
  split; [|reflexivity].
  apply (batch_tensors_aligned_is_stack _ 0%Z 2).
  - discriminate.
  - repeat constructor.
Defined.


(** * Further properties of the loader *)

(** ** Outcomes of the batch assembler *)

Lemma mapR_raise_inv {A B} (f : A → result B) (e : error) (l : list A) :
  mapR f l = raise e → Exists (fun a => f a = raise e) l.
Proof.
  induction l as [|a l IH]; simpl; intros H; [discriminate|].
  destruct (f a) as [b|e'] eqn:Ha; cbn [rbind] in H.
  - apply Exists_cons_tl, IH.
    destruct (mapR f l) as [bs|e'']; cbn [rbind] in H; [discriminate|exact H].
  - apply Exists_cons_hd. congruence.
Qed.

Lemma mapR_total {A B} (f : A → result B) (l : list A) :
  Forall (fun a => ∃ b, f a = ok b) l → ∃ bs, mapR f l = ok bs.
Proof.
  induction 1 as [|a l [b Hb] _ [bs IH]]; simpl; [eauto|].
  rewrite Hb. cbn [rbind]. rewrite IH. cbn [rbind]. eauto.
Qed.

(** [_batch_tensors] with tensors of one trailing shape: the value. *)
Lemma batch_tensors_same_trailing {A} (ts : list (Tensor A)) (v : A)
    (sizes : list nat) (L : nat) (rest : list nat) :
  Forall2 (fun t n => shape t = n :: rest) ts sizes →
  py_max sizes = ok L →
  _batch_tensors ts v =
  ok (mkTensor (length ts :: L :: rest) (concat (map (padded_data L v) ts))).
Proof.
  intros Hsh HL.
  destruct (py_max_spec _ _ HL) as [_ Hle].
  unfold _batch_tensors.
  assert (Hsizes : mapR shape0 ts = ok sizes).
  { apply mapR_ok_Forall2. eapply Forall2_impl; [exact Hsh|].
    intros t n Ht. unfold shape0. rewrite Ht. reflexivity. }
  rewrite Hsizes. cbn [rbind]. rewrite HL. cbn [rbind].
  assert (Hfirst : ∃ t0, py_first ts = ok t0 ∧
                         length (shape t0) = S (length rest)).
  { destruct Hsh as [|t0 n0 ts0 ns0 Hs0 _]; [discriminate|].
    exists t0. rewrite Hs0. split; reflexivity. }
  destruct Hfirst as (t0 & -> & Hdims). cbn [rbind]. rewrite Hdims.
  assert (Hpadded : mapR (fun tensor =>
              rbind (shape0 tensor)
                (fun n => pad_tensor (S (length rest)) (L - n) v tensor)) ts =
            ok (map (fun t => mkTensor (L :: rest) (padded_data L v t)) ts)).
  { apply mapR_ok_map. clear Hsizes Hdims HL.
    induction Hsh as [|t n ts' ns Ht _ IH]; constructor.
    - inversion Hle as [|? ? Hn _]; subst.
      unfold shape0, pad_tensor, padded_data. rewrite Ht.
      cbn [py_first rbind length head default tail].
      rewrite Nat.eqb_refl. unfold id.
      replace (n + (L - n)) with L by lia. reflexivity.
    - apply IH. inversion Hle; assumption. }
  rewrite Hpadded. cbn [rbind]. unfold torch_stack.
  destruct (map (fun t => mkTensor (L :: rest) (padded_data L v t)) ts)
    as [|p0 ps] eqn:Hps.
  { exfalso. destruct Hsh; discriminate. }
  assert (Hall : Forall (fun p => shape p = L :: rest) (p0 :: ps)).
  { rewrite <- Hps. apply Forall_map. apply Forall_forall. reflexivity. }
  assert (Hp0 : shape p0 = L :: rest) by (inversion Hall; assumption).
  replace (forallb _ (p0 :: ps)) with true.
  2:{ symmetry. apply forallb_forall. intros t Ht.
      unfold shape_eqb. apply bool_decide_eq_true.
      rewrite Forall_forall in Hall. rewrite Hp0. apply Hall.
      apply list_elem_of_In. exact Ht. }
  rewrite Hp0, <- Hps, length_map, map_map. reflexivity.
Qed.


(** X2. How [_batch_tensors] fails: with a [ValueError] exactly on the empty
    list, with an [IndexError] exactly when some tensor has no dimension,
    and with a [RuntimeError] in every other case of failure. *)
Theorem batch_tensors_failures {A} (ts : list (Tensor A)) (v : A) :
  (_batch_tensors ts v = raise ValueError ↔ ts = []) ∧
  (_batch_tensors ts v = raise IndexError ↔ Exists (fun t => shape t = []) ts) ∧
  (∀ e, _batch_tensors ts v = raise e →
        e = ValueError ∨ e = IndexError ∨ e = RuntimeError).
Proof.
  destruct ts as [|t0 ts0] eqn:Hts.
  { cbn. split; [split; auto|]. split.
    - split; [discriminate|]. intros H; inversion H.
    - intros e H. inversion H. auto. }
  rewrite <- Hts.
  assert (Hne : ts ≠ []) by (rewrite Hts; discriminate).
  destruct (mapR shape0 ts) as [sizes|e0] eqn:Hsizes.
  - (* every tensor has a leading dimension *)
    assert (Hranks : ¬ Exists (fun t : Tensor A => shape t = []) ts).
    { intros Hex. apply mapR_ok_Forall2 in Hsizes.
      apply Exists_exists in Hex as (t & Ht & Hs).
      apply list_elem_of_lookup_1 in Ht as [i Hi].
      destruct (Forall2_lookup_l _ _ _ _ _ Hsizes Hi) as (n & _ & Hn).
      unfold shape0 in Hn. rewrite Hs in Hn. discriminate. }
    assert (Hrun : ∀ e, _batch_tensors ts v = raise e → e = RuntimeError).
    { intros e. unfold _batch_tensors. rewrite Hsizes. cbn [rbind].
      destruct (py_max sizes) as [L|e1] eqn:HL.
      2:{ exfalso. destruct sizes; [|discriminate].
          apply mapR_ok_Forall2 in Hsizes. inversion Hsizes. congruence. }
      cbn [rbind]. rewrite Hts. cbn [py_first rbind]. rewrite <- Hts.
      set (pad_one := fun tensor : Tensor A => rbind (shape0 tensor) _).
      destruct (mapR pad_one ts) as [padded|e2] eqn:Hp; cbn [rbind].
      - unfold torch_stack. destruct padded; [intros H; inversion H; auto|].
        destruct (forallb _ _); intros H; inversion H; auto.
      - intros H. inversion H; subst e2.
        apply mapR_raise_inv in Hp. apply Exists_exists in Hp as (t & Hin & Ht).
        unfold pad_one, pad_tensor in Ht.
        destruct (shape0 t) as [n|e3] eqn:Hst; cbn [rbind] in Ht.
        + destruct (shape t); [inversion Ht; auto|].
          destruct (_ =? _); inversion Ht; auto.
        + exfalso. apply mapR_ok_Forall2 in Hsizes.
          apply list_elem_of_lookup_1 in Hin as [i Hi].
          destruct (Forall2_lookup_l _ _ _ _ _ Hsizes Hi) as (n & _ & Hn).
          congruence. }
    split; [|split].
    + split; [intros H; apply Hrun in H; discriminate|congruence].
    + split; [intros H; apply Hrun in H; discriminate|contradiction].
    + intros e H. apply Hrun in H. auto.
  - (* some tensor has no dimension *)
    assert (He0 : e0 = IndexError ∧ Exists (fun t : Tensor A => shape t = []) ts).
    { apply mapR_raise_inv in Hsizes.
      apply Exists_exists in Hsizes as (t & Ht & Hs).
      unfold shape0 in Hs. destruct (shape t) eqn:Hst; [|discriminate].
      inversion Hs. split; [reflexivity|].
      apply Exists_exists. eauto. }
    destruct He0 as [-> Hex].
    assert (Hfail : _batch_tensors ts v = raise IndexError).
    { unfold _batch_tensors. rewrite Hsizes. reflexivity. }
    rewrite Hfail. split; [|split].
    + split; [discriminate|congruence].
    + split; auto.
    + intros e H. inversion H. auto.
Qed.

(** ** Padding and shifting can be undone *)



(** What a collate call does with the texts: the tokenized texts end with the
    end-of-sequence index, and their views are the text tensors of the
    batch. *)
Lemma collate_text_rows (lib : Library) (self : UnitYDataLoader) raw σ b σ' :
  _prepare_batch lib self raw σ = ok (b, σ') →
  ∃ kept fbs texts σ1 prev tgt lens,
    surviving lib self raw = ok (kept, fbs) ∧
    mapM (_get_tokenized_target_text self) kept σ = ok (texts, σ1) ∧
    length texts = length kept ∧
    prev_output_tokens (speech_to_text b) = Some prev ∧
    target_tokens (speech_to_text b) = Some tgt ∧
    target_lengths (speech_to_text b) = Some lens ∧
    ∀ i t, texts !! i = Some t →
      (∃ tokens,
         data t = tokens ++ [eos_idx (text_vocab_info (text_tokenizer self))]) ∧
      shifted_row (data t) (pad_idx (text_vocab_info (text_tokenizer self)))
        i prev tgt lens.
Proof.
  intros H.
  apply prepare_batch_ok_inv in H
    as (kept & fbs & padded & sizes & texts & σ1 & tv & ulr & uv &
        Hsurv & _ & _ & Htexts & Htv & _ & _ & ->).
  destruct tv as [[prev tgt] lens].
  exists kept, fbs, texts, σ1, prev, tgt, lens.
  destruct (tokenized_texts_tensor1 _ _ _ _ _ Htexts) as (Hlen & Heq & _).
  do 3 (split; [assumption|]). do 3 (split; [reflexivity|]).
  intros i t Hi. split.
  - pose proof (mapM_ok_Forall2 _
        (fun (_ : LangPairSample) (t : Tensor Z) =>
           ∃ tokens, data t =
             tokens ++ [eos_idx (text_vocab_info (text_tokenizer self))])
        (fun s σ0 t0 σ0' Hs =>
           match get_tokenized_target_text_ok_inv self s σ0 t0 σ0' Hs with
           | ex_intro _ tokens Heq0 =>
               ex_intro _ tokens (f_equal data Heq0)
           end) _ _ _ _ Htexts) as Hall.
    destruct (Forall2_lookup_r _ _ _ _ _ Hall Hi) as (s & _ & Hs). exact Hs.
  - rewrite Heq in Htv. eapply shifted_views_rows; [exact Htv|].
    rewrite lookup_map, Hi. reflexivity.
Qed.

(** X4. The shift is undone by the lengths: a tokenized text of at least two
    tokens is the first token of its row of previous-output tokens followed
    by the first [target_lengths[i]] tokens of its row of target tokens. *)
Theorem text_views_unshift (lib : Library) (self : UnitYDataLoader)
    raw σ b σ' :
  _prepare_batch lib self raw σ = ok (b, σ') →
  ∃ kept fbs texts σ1 prev tgt lens,
    surviving lib self raw = ok (kept, fbs) ∧
    mapM (_get_tokenized_target_text self) kept σ = ok (texts, σ1) ∧
    prev_output_tokens (speech_to_text b) = Some prev ∧
    target_tokens (speech_to_text b) = Some tgt ∧
    target_lengths (speech_to_text b) = Some lens ∧
    ∀ i t len, texts !! i = Some t → data lens !! i = Some len →
      2 ≤ length (data t) →
      data t = take 1 (data (row i prev)) ++
               take (Z.to_nat len) (data (row i tgt)).
Proof.
  intros H.
  destruct (collate_text_rows _ _ _ _ _ _ H)
    as (kept & fbs & texts & σ1 & prev & tgt & lens &
        Hs & Ht & _ & Hp & Htg & Hl & Hrows).
  exists kept, fbs, texts, σ1, prev, tgt, lens.
  do 5 (split; [assumption|]).
  intros i t len Hi Hlen Hn.
  destruct (Hrows i t Hi) as (_ & (k & Hprev & Htgt) & _ & Hlens).
  rewrite Hlens in Hlen. inversion Hlen; subst len.
  rewrite Hprev, Htgt.
  replace (Z.to_nat (Z.of_nat (length (data t)) - 1)) with (length (data t) - 1)
    by lia.
  rewrite take_app_le by (rewrite length_take; lia).
  rewrite take_take. replace (1 `min` (length (data t) - 1)) with 1 by lia.
  rewrite take_app_length' by (rewrite length_drop; lia).
  symmetry. apply take_drop.
Qed.

(** X5. Every row of target tokens ends its unpadded part with the
    end-of-sequence index, and holds the pad index from there on; the row of
    previous-output tokens holds the pad index from the same position on. *)
Theorem target_rows_end_with_eos (lib : Library) (self : UnitYDataLoader)
    raw σ b σ' :
  _prepare_batch lib self raw σ = ok (b, σ') →
  ∃ prev tgt lens,
    prev_output_tokens (speech_to_text b) = Some prev ∧
    target_tokens (speech_to_text b) = Some tgt ∧
    target_lengths (speech_to_text b) = Some lens ∧
    ∀ i len, data lens !! i = Some len →
      (0 <= len)%Z ∧
      ((1 <= len)%Z →
       data (row i tgt) !! (Z.to_nat len - 1) =
         Some (eos_idx (text_vocab_info (text_tokenizer self)))) ∧
      Forall (fun x => x = pad_idx (text_vocab_info (text_tokenizer self)))
        (drop (Z.to_nat len) (data (row i tgt))) ∧
      Forall (fun x => x = pad_idx (text_vocab_info (text_tokenizer self)))
        (drop (Z.to_nat len) (data (row i prev))).
Proof.
  intros H.
  destruct (collate_text_rows _ _ _ _ _ _ H)
    as (kept & fbs & texts & σ1 & prev & tgt & lens &
        Hs & Ht & Hlen & Hp & Htg & Hl & Hrows).
  exists prev, tgt, lens. do 3 (split; [assumption|]).
  assert (Hdim : length (data lens) = length texts).
  { apply prepare_batch_ok_inv in H
      as (kept' & fbs' & padded & sizes & texts' & σ1' & tv & ulr & uv &
          Hs' & _ & _ & Ht' & Htv & _ & _ & ->).
    rewrite Hs in Hs'. inversion Hs'; subst kept' fbs'.
    rewrite Ht in Ht'. inversion Ht'; subst texts' σ1'.
    cbn in Hl. inversion Hl; subst lens.
    destruct (tokenized_texts_tensor1 _ _ _ _ _ Ht) as (_ & Heq & _).
    rewrite Heq in Htv.
    assert (Hne : map data texts ≠ []).
    { intros Hnil. rewrite Hnil in Htv. discriminate. }
    destruct (shifted_views_tensor1 (map data texts) 
                (pad_idx (text_vocab_info (text_tokenizer self))) Hne)
      as (L & _ & Hv).
    rewrite Hv in Htv. inversion Htv; subst.
    cbn [tensor1 data snd]. rewrite !length_map. reflexivity. }
  intros i len Hi.
  assert (Hti : ∃ t, texts !! i = Some t).
  { apply lookup_lt_is_Some. rewrite <- Hdim. eapply lookup_lt_Some; eauto. }
  destruct Hti as [t Hti].
  destruct (Hrows i t Hti) as ((tokens & Htok) & (k & Hprev & Htgt) & _ & Hlens).
  rewrite Hlens in Hi. inversion Hi; subst len.
  assert (Hn : length (data t) = S (length tokens)).
  { rewrite Htok, length_app. simpl. lia. }
  replace (Z.to_nat (Z.of_nat (length (data t)) - 1)) with (length tokens) by lia.
  split; [lia|]. split; [|split].
  - intros Hpos. rewrite Htgt.
    rewrite lookup_app_l by (rewrite length_drop; lia).
    rewrite lookup_drop, Htok.
    replace (1 + (length tokens - 1)) with (length tokens) by lia.
    rewrite lookup_app_r by lia. rewrite Nat.sub_diag. reflexivity.
  - rewrite Htgt, drop_app_length' by (rewrite length_drop; lia).
    apply Forall_replicate. reflexivity.
  - rewrite Hprev, drop_app_length' by (rewrite length_take; lia).
    apply Forall_replicate. reflexivity.
Qed.

(** ** The filters as functions of the samples *)

Lemma filter_notR_ok_inv {A} (p : A → result bool) (l kept : list A) :
  filter_notR p l = ok kept →
  ∃ flags, mapR p l = ok flags ∧ kept = zip_filter_not l flags.
Proof.
  revert kept. induction l as [|a l IH]; simpl; intros kept H.
  - inversion H. exists []. auto.
  - apply rbind_ok_inv in H as (skip & Hskip & H).
    apply rbind_ok_inv in H as (rest & Hrest & H). inversion H; subst.
    destruct (IH _ Hrest) as (flags & Hf & ->).
    exists (skip :: flags). rewrite Hskip; simpl. rewrite Hf; simpl.
    rewrite zip_filter_not_cons. auto.
Qed.

Lemma zip_filter_not_elem {A} (xs : list A) (flags : list bool) (x : A) :
  x ∈ zip_filter_not xs flags → x ∈ xs.
Proof.
  revert flags. induction xs as [|a xs IH]; intros flags Hx.
  - destruct flags; inversion Hx.
  - destruct flags as [|f flags].
    + rewrite zip_filter_not_nil_r in Hx. inversion Hx.
    + rewrite zip_filter_not_cons in Hx. destruct f.
      * apply list_elem_of_further. eapply IH; eauto.
      * apply elem_of_cons in Hx as [->|Hx].
        -- apply list_elem_of_here.
        -- apply list_elem_of_further. eapply IH; eauto.
Qed.

Lemma filter_notR_all_kept {A} (p : A → result bool) (l : list A) :
  Forall (fun a => p a = ok false) l → filter_notR p l = ok l.
Proof.
  induction 1 as [|a l Ha _ IH]; simpl; [reflexivity|].
  rewrite Ha. cbn [rbind]. rewrite IH. reflexivity.
Qed.

Section Filters.
Variable lib : Library.
Variable self : UnitYDataLoader.

(** What the duration filter returns: the samples that are not too long when
    there are some, and else the first sample, which is too long. *)
Lemma filter_long_audio_ok_inv samples kept :
  filter_long_audio lib self samples = ok kept →
  ∃ flags,
    mapR (_is_long_src_audio lib self) samples = ok flags ∧
    ((kept = zip_filter_not samples flags ∧ kept ≠ [] ∧
      Forall (fun s => _is_long_src_audio lib self s = ok false) kept) ∨
     (∃ s0 rest, samples = s0 :: rest ∧ kept = [s0] ∧
                 Forall (fun s => _is_long_src_audio lib self s = ok true)
                        samples)).
Proof.
  unfold filter_long_audio. intros H.
  apply rbind_ok_inv in H as (filtered & Hf & H).
  apply filter_notR_ok_inv in Hf as (flags & Hflags & ->).
  exists flags. split; [exact Hflags|].
  pose proof (zip_filter_not_elem_of _ _ _ Hflags) as Hmem.
  destruct (zip_filter_not samples flags) as [|k ks] eqn:Hk.
  - right. apply rbind_ok_inv in H as (s0 & Hs0 & H). inversion H; subst.
    destruct samples as [|s0' rest]; [discriminate|]. inversion Hs0; subst.
    exists s0, rest. split; [reflexivity|]. split; [reflexivity|].
    apply Forall_forall. intros s Hs.
    apply mapR_ok_Forall2 in Hflags.
    apply list_elem_of_lookup_1 in Hs as Hi. destruct Hi as [i Hi].
    destruct (Forall2_lookup_l _ _ _ _ _ Hflags Hi) as ([|] & _ & Hb);
      [exact Hb|].
    exfalso. pose proof (proj2 (Hmem s) (conj Hs Hb)) as Hin. inversion Hin.
  - left. inversion H; subst. split; [reflexivity|]. split; [discriminate|].
    apply Forall_forall. intros s Hs. apply Hmem in Hs as [_ Hs]. exact Hs.
Qed.

(** X6. The duration filter is idempotent: run on its own result it returns
    that result again (the sample kept by the fallback is kept again). *)
Theorem filter_long_audio_idempotent samples kept :
  filter_long_audio lib self samples = ok kept →
  filter_long_audio lib self kept = ok kept.
Proof.
  intros H.
  apply filter_long_audio_ok_inv in H
    as (flags & _ & [(_ & Hne & Hall)|(s0 & rest & -> & -> & Hall)]).
  - unfold filter_long_audio. rewrite (filter_notR_all_kept _ _ Hall).
    cbn [rbind]. destruct kept; [congruence|reflexivity].
  - inversion Hall as [|? ? Hs0 _]; subst.
    unfold filter_long_audio. cbn [filter_notR]. rewrite Hs0. reflexivity.
Qed.

Lemma filter_nans_all_kept kept fbs :
  kept ≠ [] →
  Forall2 (fun s m => _get_source_fbank lib self s = ok m) kept fbs →
  Forall (fun m => any_isnan m = false) fbs →
  filter_nans lib self kept = ok (kept, fbs).
Proof.
  intros Hne Hfb Hfree. unfold filter_nans.
  rewrite (proj2 (mapR_ok_Forall2 _ _ _) Hfb). cbn [rbind].
  assert (Hkeep : ∀ (X : Type) (xs : list X),
            length xs = length fbs →
            zip_filter_not xs (map any_isnan fbs) = xs).
  { clear Hfb Hne. induction Hfree as [|m ms Hm _ IH]; intros X xs Hlen.
    - destruct xs; [reflexivity|discriminate].
    - destruct xs as [|x xs]; [discriminate|].
      cbn [map]. rewrite zip_filter_not_cons, Hm. f_equal. apply IH.
      simpl in Hlen. lia. }
  rewrite (Hkeep _ kept) by (eapply Forall2_length; eauto).
  rewrite (Hkeep _ fbs) by reflexivity.
  destruct kept; [congruence|reflexivity].
Qed.

(** The samples a collate call keeps, kept again: decoded on their own they
    pass both filters unchanged. *)
Lemma surviving_stable raw raw' kept fbs :
  surviving lib self raw = ok (kept, fbs) →
  mapR (from_json lib) raw' = ok kept →
  surviving lib self raw' = ok (kept, fbs).
Proof.
  intros Hs Hraw'.
  apply surviving_ok_inv in Hs as (samples0 & samples1 & _ & Hlong & Hnan).
  apply filter_nans_ok_inv in Hnan
    as (all_fbs & _ & Hkept & _ & Hne & Hfb & Hfree).
  unfold surviving. rewrite Hraw'. cbn [rbind].
  assert (Hk : filter_long_audio lib self kept = ok kept).
  { apply filter_long_audio_ok_inv in Hlong
      as (flags & _ & [(_ & _ & Hall)|(s0 & rest & -> & -> & Hall)]).
    - unfold filter_long_audio. rewrite filter_notR_all_kept.
      + cbn [rbind]. destruct kept; [congruence|reflexivity].
      + apply Forall_forall. intros s Hin. rewrite Forall_forall in Hall.
        apply Hall. rewrite Hkept in Hin.
        eapply zip_filter_not_elem; exact Hin.
    - assert (kept = [s0]) as ->.
      { pose proof (zip_filter_not_sublist [s0] (map any_isnan all_fbs)) as Hsub.
        rewrite <- Hkept in Hsub.
        destruct kept as [|k ks]; [congruence|].
        apply sublist_length in Hsub as Hlen. simpl in Hlen.
        destruct ks; [|simpl in Hlen; lia].
        apply sublist_cons_l in Hsub as (l1 & l2 & Heq & _).
        destruct l1 as [|? [|? ?]]; inversion Heq; reflexivity. }
      inversion Hall as [|? ? Hs0 _]; subst.
      unfold filter_long_audio. cbn [filter_notR]. rewrite Hs0. reflexivity. }
  rewrite Hk. cbn [rbind]. apply filter_nans_all_kept; assumption.
Qed.

Lemma mbindM_liftR_ok {A B} (a : A) (k : A → M B) σ :
  mbindM (liftR (ok a)) k σ = k a σ.
Proof. reflexivity. Qed.

(** A collate call is its filters followed by an assembly that sees the kept
    samples and their features only. *)
Lemma prepare_batch_surviving_ext raw raw' σ kept :
  surviving lib self raw = ok kept →
  surviving lib self raw' = ok kept →
  _prepare_batch lib self raw' σ = _prepare_batch lib self raw σ.
Proof.
  intros Hs Hs'. destruct kept as [kept fbs].
  apply surviving_ok_inv in Hs as (s0 & s1 & HA & HF & HN).
  apply surviving_ok_inv in Hs' as (s0' & s1' & HA' & HF' & HN').
  unfold _prepare_batch.
  rewrite HA, HA', !mbindM_liftR_ok. cbn beta.
  rewrite HF, HF', !mbindM_liftR_ok. cbn beta.
  rewrite HN, HN', !mbindM_liftR_ok. reflexivity.
Qed.

(** X7. A batch depends on the samples that pass the filters only: a collate
    call on exactly the kept samples returns the same batch and leaves the
    same encoders behind. *)
Theorem prepare_batch_of_survivors raw raw' σ b σ' kept fbs :
  _prepare_batch lib self raw σ = ok (b, σ') →
  surviving lib self raw = ok (kept, fbs) →
  mapR (from_json lib) raw' = ok kept →
  _prepare_batch lib self raw' σ = ok (b, σ').
Proof.
  intros Hb Hs Hraw'. rewrite <- Hb.
  apply (prepare_batch_surviving_ext raw raw' σ (kept, fbs)); [exact Hs|].
  eapply surviving_stable; eauto.
Qed.

(** X8. A batch holds at least one and at most as many samples as were
    requested, in the order of the request, with one feature matrix each. *)
Theorem surviving_sublist raw kept fbs :
  surviving lib self raw = ok (kept, fbs) →
  ∃ samples,
    mapR (from_json lib) raw = ok samples ∧
    kept `sublist_of` samples ∧
    1 ≤ length kept ≤ length raw ∧
    length fbs = length kept.
Proof.
  intros Hs.
  apply surviving_ok_inv in Hs as (samples0 & samples1 & Hraw & Hlong & Hnan).
  apply filter_nans_ok_inv in Hnan
    as (all_fbs & _ & Hkept & _ & Hne & Hfb & _).
  exists samples0. split; [exact Hraw|].
  assert (H1 : samples1 `sublist_of` samples0).
  { apply filter_long_audio_ok_inv in Hlong
      as (flags & _ & [(-> & _ & _)|(s0 & rest & -> & -> & _)]).
    - apply zip_filter_not_sublist.
    - apply sublist_skip, sublist_nil_l. }
  assert (H2 : kept `sublist_of` samples0).
  { etransitivity; [|exact H1]. rewrite Hkept. apply zip_filter_not_sublist. }
  split; [exact H2|]. split.
  - split.
    + destruct kept; [congruence|simpl; lia].
    + apply sublist_length in H2.
      apply mapR_ok_Forall2, Forall2_length in Hraw. lia.
  - symmetry. eapply Forall2_length; eauto.
Qed.

(** X9. The duration filter returns samples exactly when at least one sample
    was requested and the duration test answers for every requested sample;
    on an empty request its fallback has no first sample and the collate call
    ends in an [IndexError]. *)
Theorem filter_long_audio_total samples :
  ((∃ kept, filter_long_audio lib self samples = ok kept) ↔
   samples ≠ [] ∧
   ∃ flags, mapR (_is_long_src_audio lib self) samples = ok flags) ∧
  (samples = [] →
   filter_long_audio lib self samples = raise IndexError ∧
   ∀ (raw : list (Raw lib)) σ,
     mapR (from_json lib) raw = ok samples →
     _prepare_batch lib self raw σ = raise IndexError).
Proof.
  split.
  - split.
    + intros [kept H]. split.
      * intros ->. discriminate.
      * apply filter_long_audio_ok_inv in H as (flags & Hflags & _). eauto.
    + intros [Hne [flags Hflags]]. unfold filter_long_audio.
      rewrite (filter_notR_ok _ _ _ Hflags). cbn [rbind].
      destruct (zip_filter_not samples flags); [|eauto].
      destruct samples; [congruence|]. cbn. eauto.
  - intros ->. split; [reflexivity|].
    intros raw σ Hraw. unfold _prepare_batch.
    rewrite Hraw, mbindM_liftR_ok. reflexivity.
Qed.

(** X10. Audio that cannot be loaded is never dropped silently: when the
    audio of one requested sample fails to load, no batch is returned. *)
Theorem unreadable_audio_aborts raw σ samples s e :
  mapR (from_json lib) raw = ok samples →
  s ∈ samples →
  torchaudio_load lib (audio_local_path (source s)) = raise e →
  ∀ b σ', _prepare_batch lib self raw σ ≠ ok (b, σ').
Proof.
  intros Hraw Hin Hload b σ' H.
  apply prepare_batch_ok_inv in H
    as (kept & fbs & padded & sizes & texts & σ1 & tv & ulr & uv & Hs & _).
  apply surviving_ok_inv in Hs as (samples0 & samples1 & Hraw' & Hlong & _).
  rewrite Hraw in Hraw'. inversion Hraw'; subst samples0.
  apply filter_long_audio_ok_inv in Hlong as (flags & Hflags & _).
  apply mapR_ok_Forall2 in Hflags.
  apply list_elem_of_lookup_1 in Hin as [i Hi].
  destruct (Forall2_lookup_l _ _ _ _ _ Hflags Hi) as (flag & _ & Hlongs).
  unfold _is_long_src_audio in Hlongs. rewrite Hload in Hlongs. discriminate.
Qed.
End Filters.

(** ** The encoder dictionaries *)

Section Encoders.
Variable self : UnitYDataLoader.

Ltac use_cached H :=
  match type of H with
  | _ = ?v =>
      match goal with
      | |- context [match ?x with Some _ => _ | None => _ end] =>
          replace x with v by (symmetry; exact H)
      end
  end.

Lemma cached_text_encoder sample σ (enc : TextTokenEncoder) :
  text_encoders_per_lang σ !! lang (target sample) = Some enc →
  _get_tokenized_target_text self sample σ =
  rbind (enc (text (target sample)))
    (fun tokens =>
       ok (tensor1 (tokens ++
                    [eos_idx (text_vocab_info (text_tokenizer self))]), σ)).
Proof.
  intros Henc. unfold _get_tokenized_target_text. cbn beta zeta.
  use_cached Henc. cbn [rbind]. use_cached Henc. reflexivity.
Qed.

Lemma cached_unit_encoder sample σ (enc : UnitTokenEncoder) us :
  unit_encoders_per_lang σ !! lang (target sample) = Some enc →
  units (target sample) = Some us →
  _get_tokenized_units self sample σ =
  rbind (enc us)
    (fun tokens =>
       ok (Some (tensor1 (tokens ++
                          [eos_idx (unit_vocab_info (unit_tokenizer self))])),
           σ)).
Proof.
  intros Henc Hus. unfold _get_tokenized_units. cbn beta zeta.
  rewrite Hus. use_cached Henc. cbn [rbind]. use_cached Henc. reflexivity.
Qed.

(** X11. A language that is in a dictionary is encoded by the encoder stored
    for it, and the tokenizer is not asked again: two loaders that agree on
    the end-of-sequence indices return the same sequences and dictionaries
    for such a language, whatever encoders their tokenizers would build. *)
Theorem cached_encoder_is_used (other : UnitYDataLoader) sample σ
    (text_enc : TextTokenEncoder) (unit_enc : UnitTokenEncoder) :
  eos_idx (text_vocab_info (text_tokenizer other)) =
    eos_idx (text_vocab_info (text_tokenizer self)) →
  eos_idx (unit_vocab_info (unit_tokenizer other)) =
    eos_idx (unit_vocab_info (unit_tokenizer self)) →
  text_encoders_per_lang σ !! lang (target sample) = Some text_enc →
  unit_encoders_per_lang σ !! lang (target sample) = Some unit_enc →
  _get_tokenized_target_text other sample σ =
    _get_tokenized_target_text self sample σ ∧
  _get_tokenized_units other sample σ = _get_tokenized_units self sample σ ∧
  (∀ t σ', _get_tokenized_target_text self sample σ = ok (t, σ') → σ' = σ) ∧
  (∀ o σ', _get_tokenized_units self sample σ = ok (o, σ') → σ' = σ).
Proof.
  intros Heos_t Heos_u Htext Hunit.
  assert (Hu : ∀ loader, _get_tokenized_units loader sample σ =
            match units (target sample) with
            | None => ok (None, σ)
            | Some us =>
                rbind (unit_enc us)
                  (fun tokens =>
                     ok (Some (tensor1 (tokens ++
                           [eos_idx (unit_vocab_info (unit_tokenizer loader))])),
                         σ))
            end).
  { intros loader. unfold _get_tokenized_units. cbn beta zeta.
    destruct (units (target sample)) as [us|]; [|reflexivity].
    use_cached Hunit. cbn [rbind]. use_cached Hunit. reflexivity. }
  assert (Ht : ∀ loader, _get_tokenized_target_text loader sample σ =
            rbind (text_enc (text (target sample)))
              (fun tokens =>
                 ok (tensor1 (tokens ++
                       [eos_idx (text_vocab_info (text_tokenizer loader))]), σ))).
  { intros loader. unfold _get_tokenized_target_text. cbn beta zeta.
    use_cached Htext. cbn [rbind]. use_cached Htext. reflexivity. }
  split; [rewrite !Ht, Heos_t; reflexivity|].
  split; [rewrite !Hu, Heos_u; reflexivity|]. split.
  - intros t σ'. rewrite Ht.
    destruct (text_enc (text (target sample))); cbn [rbind];
      intros H; inversion H; reflexivity.
  - intros o σ'. rewrite Hu.
    destruct (units (target sample)) as [us|];
      [destruct (unit_enc us); cbn [rbind]|];
      intros H; inversion H; reflexivity.
Qed.

(** One call of [_get_tokenized_target_text]. *)
Lemma tokenized_text_step sample σ t σ' :
  _get_tokenized_target_text self sample σ = ok (t, σ') →
  unit_encoders_per_lang σ' = unit_encoders_per_lang σ ∧
  text_encoders_per_lang σ ⊆ text_encoders_per_lang σ' ∧
  dom (text_encoders_per_lang σ') =
    dom (text_encoders_per_lang σ) ∪ {[lang (target sample)]} ∧
  ∃ enc tokens,
    text_encoders_per_lang σ' !! lang (target sample) = Some enc ∧
    enc (text (target sample)) = ok tokens ∧
    t = tensor1 (tokens ++ [eos_idx (text_vocab_info (text_tokenizer self))]).
Proof.
  unfold _get_tokenized_target_text. intros H.
  apply rbind_ok_inv in H as (σ1 & Hσ1 & H).
  destruct (text_encoders_per_lang σ1 !! lang (target sample)) as [enc|] eqn:Henc;
    [|discriminate].
  apply rbind_ok_inv in H as (tokens & Htok & H). inversion H; subst t σ'.
  destruct (text_encoders_per_lang σ !! lang (target sample)) as [enc0|] eqn:Hold.
  - inversion Hσ1; subst σ1. split; [reflexivity|]. split; [reflexivity|].
    split; [|eauto].
    apply elem_of_dom_2 in Hold. set_solver.
  - apply rbind_ok_inv in Hσ1 as (enc1 & _ & Hσ1). inversion Hσ1; subst σ1.
    cbn [text_encoders_per_lang unit_encoders_per_lang] in *.
    split; [reflexivity|]. split; [apply insert_subseteq; exact Hold|].
    split; [rewrite dom_insert_L; set_solver|eauto].
Qed.

(** One call of [_get_tokenized_units]. *)
Lemma tokenized_units_step sample σ o σ' :
  _get_tokenized_units self sample σ = ok (o, σ') →
  text_encoders_per_lang σ' = text_encoders_per_lang σ ∧
  unit_encoders_per_lang σ ⊆ unit_encoders_per_lang σ' ∧
  match units (target sample) with
  | None => o = None ∧ σ' = σ
  | Some us =>
      dom (unit_encoders_per_lang σ') =
        dom (unit_encoders_per_lang σ) ∪ {[lang (target sample)]} ∧
      ∃ enc tokens,
        unit_encoders_per_lang σ' !! lang (target sample) = Some enc ∧
        enc us = ok tokens ∧
        o = Some (tensor1 (tokens ++
                           [eos_idx (unit_vocab_info (unit_tokenizer self))]))
  end.
Proof.
  unfold _get_tokenized_units. intros H.
  destruct (units (target sample)) as [us|].
  2:{ inversion H; subst. auto. }
  apply rbind_ok_inv in H as (σ1 & Hσ1 & H).
  destruct (unit_encoders_per_lang σ1 !! lang (target sample)) as [enc|] eqn:Henc;
    [|discriminate].
  apply rbind_ok_inv in H as (tokens & Htok & H). inversion H; subst o σ'.
  destruct (unit_encoders_per_lang σ !! lang (target sample)) as [enc0|] eqn:Hold.
  - inversion Hσ1; subst σ1. split; [reflexivity|]. split; [reflexivity|].
    split; [|eauto].
    apply elem_of_dom_2 in Hold. set_solver.
  - apply rbind_ok_inv in Hσ1 as (enc1 & _ & Hσ1). inversion Hσ1; subst σ1.
    cbn [text_encoders_per_lang unit_encoders_per_lang] in *.
    split; [reflexivity|]. split; [apply insert_subseteq; exact Hold|].
    split; [rewrite dom_insert_L; set_solver|eauto].
Qed.

Lemma tokenized_texts_trace samples σ texts σ' :
  mapM (_get_tokenized_target_text self) samples σ = ok (texts, σ') →
  unit_encoders_per_lang σ' = unit_encoders_per_lang σ ∧
  text_encoders_per_lang σ ⊆ text_encoders_per_lang σ' ∧
  dom (text_encoders_per_lang σ') =
    dom (text_encoders_per_lang σ) ∪
    list_to_set (map (fun s => lang (target s)) samples) ∧
  Forall2 (fun s t =>
             ∃ enc tokens,
               text_encoders_per_lang σ' !! lang (target s) = Some enc ∧
               enc (text (target s)) = ok tokens ∧
               t = tensor1 (tokens ++
                            [eos_idx (text_vocab_info (text_tokenizer self))]))
          samples texts.
Proof.
  revert σ texts σ'. induction samples as [|s samples IH]; intros σ texts σ' H.
  - apply mretM_ok_inv in H as [-> ->].
    split; [reflexivity|]. split; [reflexivity|].
    split; [cbn; set_solver|constructor].
  - cbn [mapM] in H.
    apply mbindM_ok_inv in H as (t & σ1 & Hstep & H).
    apply mbindM_ok_inv in H as (ts & σ2 & Hrest & H).
    apply mretM_ok_inv in H as [-> ->].
    apply tokenized_text_step in Hstep
      as (Hu1 & Hsub1 & Hdom1 & enc & tokens & Henc & Htok & Ht).
    apply IH in Hrest as (Hu2 & Hsub2 & Hdom2 & Hall).
    split; [congruence|]. split; [etransitivity; eauto|].
    split; [rewrite Hdom2, Hdom1; cbn [map]; set_solver|].
    constructor; [|exact Hall].
    exists enc, tokens. split; [|auto].
    eapply lookup_weaken; eauto.
Qed.

(** X12. Tokenizing the texts of a batch only adds encoders, one for each
    target language that had none, never replaces one and leaves the unit
    encoders alone; and every text is encoded by the encoder that the
    dictionary holds for its language afterwards. *)
Theorem tokenized_texts_coherent samples σ texts σ' :
  mapM (_get_tokenized_target_text self) samples σ = ok (texts, σ') →
  unit_encoders_per_lang σ' = unit_encoders_per_lang σ ∧
  text_encoders_per_lang σ ⊆ text_encoders_per_lang σ' ∧
  dom (text_encoders_per_lang σ') =
    dom (text_encoders_per_lang σ) ∪
    list_to_set (map (fun s => lang (target s)) samples) ∧
  Forall2 (fun s t =>
             ∃ enc tokens,
               text_encoders_per_lang σ' !! lang (target s) = Some enc ∧
               enc (text (target s)) = ok tokens ∧
               t = tensor1 (tokens ++
                            [eos_idx (text_vocab_info (text_tokenizer self))]))
          samples texts.
Proof. apply tokenized_texts_trace. Qed.

Lemma tokenized_units_trace samples σ ulr σ' :
  mapM (_get_tokenized_units self) samples σ = ok (ulr, σ') →
  text_encoders_per_lang σ' = text_encoders_per_lang σ ∧
  unit_encoders_per_lang σ ⊆ unit_encoders_per_lang σ' ∧
  dom (unit_encoders_per_lang σ') =
    dom (unit_encoders_per_lang σ) ∪
    list_to_set (map (fun s => lang (target s))
                   (filter (fun s => negb (is_None (units (target s)))) samples)) ∧
  Forall2 (fun s o =>
             match units (target s) with
             | None => o = None
             | Some us =>
                 ∃ enc tokens,
                   unit_encoders_per_lang σ' !! lang (target s) = Some enc ∧
                   enc us = ok tokens ∧
                   o = Some (tensor1 (tokens ++
                               [eos_idx (unit_vocab_info (unit_tokenizer self))]))
             end)
          samples ulr.
Proof.
  revert σ ulr σ'. induction samples as [|s samples IH]; intros σ ulr σ' H.
  - apply mretM_ok_inv in H as [-> ->].
    split; [reflexivity|]. split; [reflexivity|].
    split; [cbn; set_solver|constructor].
  - cbn [mapM] in H.
    apply mbindM_ok_inv in H as (o & σ1 & Hstep & H).
    apply mbindM_ok_inv in H as (os & σ2 & Hrest & H).
    apply mretM_ok_inv in H as [-> ->].
    apply tokenized_units_step in Hstep as (Ht1 & Hsub1 & Hstep).
    apply IH in Hrest as (Ht2 & Hsub2 & Hdom2 & Hall).
    split; [congruence|]. split; [etransitivity; eauto|].
    rewrite filter_cons.
    destruct (units (target s)) as [us|] eqn:Hus; cbn [is_None negb].
    + destruct Hstep as (Hdom1 & enc & tokens & Henc & Htok & Ho).
      split; [rewrite Hdom2, Hdom1; cbn [map]; set_solver|].
      constructor; [|exact Hall]. rewrite Hus.
      exists enc, tokens. split; [|auto].
      eapply lookup_weaken; eauto.
    + destruct Hstep as (-> & ->).
      split; [rewrite Hdom2; cbn; set_solver|].
      constructor; [|exact Hall]. rewrite Hus. reflexivity.
Qed.

(** X13. Tokenizing the units of a batch only adds encoders, for the target
    languages of the samples that have units, and leaves the text encoders
    alone; a sample without units gets no sequence, and the units of every
    other sample are encoded by the encoder that the dictionary holds for its
    language afterwards. *)
Theorem tokenized_units_coherent samples σ ulr σ' :
  mapM (_get_tokenized_units self) samples σ = ok (ulr, σ') →
  text_encoders_per_lang σ' = text_encoders_per_lang σ ∧
  unit_encoders_per_lang σ ⊆ unit_encoders_per_lang σ' ∧
  dom (unit_encoders_per_lang σ') =
    dom (unit_encoders_per_lang σ) ∪
    list_to_set (map (fun s => lang (target s))
                   (filter (fun s => negb (is_None (units (target s)))) samples)) ∧
  Forall2 (fun s o =>
             match units (target s) with
             | None => o = None
             | Some us =>
                 ∃ enc tokens,
                   unit_encoders_per_lang σ' !! lang (target s) = Some enc ∧
                   enc us = ok tokens ∧
                   o = Some (tensor1 (tokens ++
                               [eos_idx (unit_vocab_info (unit_tokenizer self))]))
             end)
          samples ulr.
Proof. apply tokenized_units_trace. Qed.

(** X14. Tokenizing the same samples again changes nothing: with the
    dictionaries a first pass leaves behind, a second pass returns the same
    sequences and the same dictionaries. *)
Theorem tokenized_texts_stable samples σ texts σ' :
  mapM (_get_tokenized_target_text self) samples σ = ok (texts, σ') →
  mapM (_get_tokenized_target_text self) samples σ' = ok (texts, σ').
Proof.
  intros H. apply tokenized_texts_trace in H as (_ & _ & _ & Hall).
  induction Hall as [|s t ss ts (enc & tokens & Henc & Htok & ->) _ IH].
  - reflexivity.
  - cbn [mapM]. unfold mbindM at 1.
    rewrite (cached_text_encoder s σ' enc Henc), Htok.
    cbn [rbind]. unfold mbindM at 1. rewrite IH. reflexivity.
Qed.
End Encoders.

(** ** Collate calls: dictionaries, success and the converter *)

Section CollateMore.
Variable lib : Library.
Variable self : UnitYDataLoader.

(** X15. A collate call that returns a batch only adds encoders to the two
    dictionaries: one text encoder for each target language of a kept sample
    that had none, and one unit encoder for each target language of a kept
    sample with units that had none. *)
Theorem prepare_batch_encoders raw σ b σ' :
  _prepare_batch lib self raw σ = ok (b, σ') →
  ∃ kept fbs,
    surviving lib self raw = ok (kept, fbs) ∧
    text_encoders_per_lang σ ⊆ text_encoders_per_lang σ' ∧
    unit_encoders_per_lang σ ⊆ unit_encoders_per_lang σ' ∧
    dom (text_encoders_per_lang σ') =
      dom (text_encoders_per_lang σ) ∪
      list_to_set (map (fun s => lang (target s)) kept) ∧
    dom (unit_encoders_per_lang σ') =
      dom (unit_encoders_per_lang σ) ∪
      list_to_set (map (fun s => lang (target s))
                     (filter (fun s => negb (is_None (units (target s)))) kept)).
Proof.
  intros H.
  apply prepare_batch_ok_inv in H
    as (kept & fbs & padded & sizes & texts & σ1 & tv & ulr & uv &
        Hsurv & _ & _ & Htexts & _ & Hunits & _ & _).
  exists kept, fbs. split; [exact Hsurv|].
  apply tokenized_texts_trace in Htexts as (Hu1 & Ht1 & Hd1 & _).
  apply tokenized_units_trace in Hunits as (Ht2 & Hu2 & Hd2 & _).
  split; [rewrite Ht2; exact Ht1|]. split; [rewrite <- Hu1; exact Hu2|].
  split; [rewrite Ht2; exact Hd1|]. rewrite Hd2, Hu1. reflexivity.
Qed.


(** X17. The converter only ever sees a waveform of two dimensions at
    16 kHz, with 80 mel bins, a waveform scale of 32768, channels last,
    standardization and the float type of the configuration: features that
    are returned come from such a call. *)
Theorem converter_call_discipline sample m :
  _get_source_fbank lib self sample = ok m →
  ∃ wav w,
    torchaudio_load lib (audio_local_path (source sample)) = ok (wav, 16000%Z) ∧
    channel_layout wav = ok w ∧
    length (shape w) = 2 ∧
    WaveformToFbankConverter lib
      (mkFbankParams 80 32768 true true (float_dtype (batching_config self)))
      w 16000%Z = ok m.
Proof.
  unfold _get_source_fbank. intros H.
  apply rbind_ok_inv in H as ([wav sr] & Hload & H). cbn [fst snd] in H.
  apply rbind_ok_inv in H as (u & Hrate & H).
  apply rbind_ok_inv in H as (w & Hw & H).
  apply py_assert_ok_inv in Hrate. apply Z.eqb_eq in Hrate. subst sr.
  exists wav, w. split; [exact Hload|]. split; [exact Hw|]. split; [|exact H].
  unfold channel_layout in Hw.
  apply rbind_ok_inv in Hw as (u' & Hrank & Hw).
  apply py_assert_ok_inv in Hrank.
  destruct (Nat.eqb_spec (length (shape wav)) 1) as [H1|H1].
  - inversion Hw; subst w. unfold unsqueeze_last. cbn [shape].
    rewrite length_app, H1. reflexivity.
  - cbn [orb] in Hrank. apply Nat.eqb_eq in Hrank.
    apply rbind_ok_inv in Hw as (n0 & _ & Hw).
    destruct (n0 <=? 2); inversion Hw; subst w; [|exact Hrank].
    unfold transpose01.
    destruct (shape wav) as [|r [|c rest]] eqn:Hs; try discriminate.
    cbn [shape]. simpl in Hrank. simpl. lia.
Qed.

Lemma wrong_sample_rate_rejected sample wav sample_rate :
  torchaudio_load lib (audio_local_path (source sample)) = ok (wav, sample_rate) →
  sample_rate ≠ 16000%Z →
  _get_source_fbank lib self sample = raise AssertionError.
Proof.
  intros Hload Hrate. unfold _get_source_fbank. rewrite Hload.
  cbn [rbind fst snd]. unfold SAMPLE_RATE.
  destruct (Z.eqb_spec sample_rate 16000); [contradiction|reflexivity].
Qed.

(** X18. The sample rate is asserted for every sample that passes the
    duration filter, also for those that the NaN filter drops afterwards:
    when one of them is loaded at another rate than 16 kHz, no batch is
    returned.  (A sample dropped by the duration filter is not examined.) *)
Theorem wrong_sample_rate_aborts raw σ samples0 samples1 s wav sample_rate :
  mapR (from_json lib) raw = ok samples0 →
  filter_long_audio lib self samples0 = ok samples1 →
  s ∈ samples1 →
  torchaudio_load lib (audio_local_path (source s)) = ok (wav, sample_rate) →
  sample_rate ≠ 16000%Z →
  ∀ b σ', _prepare_batch lib self raw σ ≠ ok (b, σ').
Proof.
  intros Hraw Hlong Hin Hload Hrate b σ' H.
  apply prepare_batch_ok_inv in H
    as (kept & fbs & padded & sizes & texts & σ1 & tv & ulr & uv & Hs & _).
  apply surviving_ok_inv in Hs as (s0 & s1 & Hraw' & Hlong' & Hnan).
  rewrite Hraw in Hraw'. inversion Hraw'; subst s0.
  rewrite Hlong in Hlong'. inversion Hlong'; subst s1.
  apply filter_nans_ok_inv in Hnan as (all_fbs & Hfb & _).
  apply mapR_ok_Forall2 in Hfb.
  apply list_elem_of_lookup_1 in Hin as [i Hi].
  destruct (Forall2_lookup_l _ _ _ _ _ Hfb Hi) as (m & _ & Hm).
  rewrite (wrong_sample_rate_rejected _ _ _ Hload Hrate) in Hm. discriminate.
Qed.
End CollateMore.

(** ** The normalised layout *)

Lemma transpose01_wf {A} (t : Tensor A) (r c : nat) :
  shape t = [r; c] → wf_tensor t → wf_tensor (transpose01 t).
Proof.
  intros Hs Hwf. unfold wf_tensor in *. unfold transpose01.
  rewrite Hs in *. cbn [shape data numel foldr] in *.
  rewrite (length_bind_fixed _ r).
  - rewrite length_seq. lia.
  - intros j Hj. apply elem_of_seq in Hj.
    rewrite (length_bind_fixed _ 1).
    + rewrite length_seq. lia.
    + intros i Hi. apply elem_of_seq in Hi.
      rewrite length_take, length_drop. nia.
Qed.

(** X19. The layout normalisation returns a waveform of two dimensions with
    as many elements as it was given, well formed if the given one is; and a
    normalised waveform of more than two frames is left alone when it is
    normalised again. *)
Theorem channel_layout_invariants (wav w : Tensor spec_float) :
  channel_layout wav = ok w →
  length (shape w) = 2 ∧
  numel (shape w) = numel (shape wav) ∧
  (wf_tensor wav → wf_tensor w) ∧
  (∀ frames channels, shape w = [frames; channels] → 2 < frames →
     channel_layout w = ok w).
Proof.
  intros H.
  assert (Hidem : ∀ w' : Tensor spec_float, ∀ frames channels,
            shape w' = [frames; channels] → 2 < frames →
            channel_layout w' = ok w').
  { intros w' frames channels Hs Hf. unfold channel_layout, shape0.
    rewrite Hs. cbn.
    destruct (Nat.leb_spec frames 2); [lia|reflexivity]. }
  unfold channel_layout in H.
  apply rbind_ok_inv in H as (u & Hrank & H).
  apply py_assert_ok_inv in Hrank.
  destruct (shape wav) as [|n [|c [|d rest]]] eqn:Hs; cbn in Hrank;
    try discriminate.
  - cbn in H. inversion H; subst w. unfold unsqueeze_last, wf_tensor.
    rewrite Hs. cbn [shape data app numel foldr length].
    split; [reflexivity|]. split; [lia|]. split; [intros Hw; lia|].
    intros frames channels Hfc Hf. apply (Hidem _ frames channels); assumption.
  - cbn in H. unfold shape0 in H. rewrite Hs in H. cbn in H.
    destruct (n <=? 2).
    + inversion H; subst w.
      destruct (transpose01_matrix wav n c Hs) as [Hts _].
      rewrite Hts. cbn [length numel foldr].
      split; [reflexivity|]. split; [lia|].
      split; [apply (transpose01_wf wav n c Hs)|].
      intros frames channels Hfc Hf.
      apply (Hidem _ frames channels); [congruence|exact Hf].
    + inversion H; subst w. rewrite Hs.
      split; [reflexivity|]. split; [reflexivity|]. split; [auto|].
      intros frames channels Hfc Hf.
      apply (Hidem _ frames channels); [congruence|exact Hf].
Qed.

(** ** The loaders of [main] *)

Lemma longer_than_100_longer_than_15 (x : spec_float) :
  py_float_gt x (float_of_int float64 100) = true →
  py_float_gt x (float_of_int float64 15) = true.
Proof.
  unfold py_float_gt, SFltb.
  change (float_of_int float64 100)
    with (S754_finite false 7036874417766400 (-46)).
  change (float_of_int float64 15)
    with (S754_finite false 8444249301319680 (-49)).
  destruct x as [s|s| |s m e]; cbn [SFcompare]; try discriminate.
  - destruct s; auto.
  - destruct s; [discriminate|].
    destruct (Z.compare_spec (-46) e) as [He|He|He];
      destruct (Z.compare_spec (-49) e) as [He'|He'|He']; try lia; auto;
      try discriminate.
Qed.

(** X20. The evaluation loader of [main] is the more tolerant one: a sample
    that the duration test of the training loader keeps is kept by the test
    of the evaluation loader, and both loaders convert the features to a
    16-bit float type. *)
Theorem eval_limit_is_laxer (lib : Library) (tt : NllbTokenizer)
    (ut : UnitTokenizer) (size node_rank nodes : Z) (device_type : string)
    (sample : LangPairSample) :
  _is_long_src_audio lib
    (train_dataloader tt ut size node_rank nodes device_type) sample = ok false →
  _is_long_src_audio lib
    (eval_dataloader tt ut size node_rank nodes device_type) sample = ok false ∧
  float_dtype (batching_config
                 (train_dataloader tt ut size node_rank nodes device_type)) =
  float_dtype (batching_config
                 (eval_dataloader tt ut size node_rank nodes device_type)) ∧
  (float_dtype (batching_config
                  (eval_dataloader tt ut size node_rank nodes device_type)) =
     float16 ∨
   float_dtype (batching_config
                  (eval_dataloader tt ut size node_rank nodes device_type)) =
     bfloat16).
Proof.
  intros H. split; [|split].
  - unfold _is_long_src_audio in *.
    destruct (torchaudio_load lib (audio_local_path (source sample)))
      as [[wav sr]|e]; [|discriminate].
    cbn [rbind fst snd] in *.
    destruct (py_max (shape wav)) as [longest|e]; [|discriminate].
    cbn [rbind] in *.
    destruct (py_truediv (Z.of_nat longest) sr) as [length_s|e]; [|discriminate].
    cbn [rbind train_dataloader eval_dataloader batching_config
         main_batching_config max_audio_length_sec] in *.
    destruct (py_float_gt length_s (float_of_int float64 100)) eqn:H100;
      [|reflexivity].
    apply longer_than_100_longer_than_15 in H100.
    rewrite H100 in H. discriminate.
  - reflexivity.
  - cbn [eval_dataloader batching_config main_batching_config float_dtype].
    unfold finetune_float_dtype. destruct (negb _); auto.
Qed.

(** * The further properties on the small loader *)

Lemma text_views_unshift_witness :
  ∃ b σ' prev tgt,
    _prepare_batch Demo.lib Demo.self [Demo.sample_a; Demo.sample_d]
      Demo.no_encoders = ok (b, σ') ∧
    prev_output_tokens (speech_to_text b) = Some prev ∧
    target_tokens (speech_to_text b) = Some tgt ∧
    [3; 256003; 104; 105; 3]%Z =
      take 1 (data (row 0 prev)) ++ take 4 (data (row 0 tgt)).
Proof.
  destruct (_prepare_batch Demo.lib Demo.self [Demo.sample_a; Demo.sample_d]
              Demo.no_encoders)
    as [[b σ']|e] eqn:H; [|vm_compute in H; discriminate].
  destruct (text_views_unshift _ _ _ _ _ _ H)
    as (kept & fbs & texts & σ1 & prev & tgt & lens &
        Hs & Ht & Hp & Htg & Hl & Hrows).
  exists b, σ', prev, tgt. split; [reflexivity|]. do 2 (split; [assumption|]).
  vm_compute in Hs. inversion Hs; subst kept fbs; clear Hs.
  vm_compute in Ht. inversion Ht; subst texts σ1; clear Ht.
  assert (Hlens : data lens !! 0 = Some 4%Z).
  { vm_compute in H. inversion H; subst b. cbn in Hl. inversion Hl.
    reflexivity. }
  apply (Hrows 0 _ 4%Z eq_refl Hlens). simpl. lia.
Defined.

Lemma target_rows_end_with_eos_witness :
  ∃ b σ' tgt,
    _prepare_batch Demo.lib Demo.self [Demo.sample_a; Demo.sample_d]
      Demo.no_encoders = ok (b, σ') ∧
    target_tokens (speech_to_text b) = Some tgt ∧
    data (row 0 tgt) !! 3 = Some 3%Z ∧
    Forall (fun x => x = 0%Z) (drop 4 (data (row 0 tgt))).
Proof.
  destruct (_prepare_batch Demo.lib Demo.self [Demo.sample_a; Demo.sample_d]
              Demo.no_encoders)
    as [[b σ']|e] eqn:H; [|vm_compute in H; discriminate].
  destruct (target_rows_end_with_eos _ _ _ _ _ _ H)
    as (prev & tgt & lens & Hp & Htg & Hl & Hrows).
  exists b, σ', tgt. split; [reflexivity|]. split; [assumption|].
  assert (Hlens : data lens !! 0 = Some 4%Z).
  { vm_compute in H. inversion H; subst b. cbn in Hl. inversion Hl.
    reflexivity. }
  destruct (Hrows 0 4%Z Hlens) as (_ & Heos & Hpad & _).
  split; [apply Heos; lia|exact Hpad].
Defined.

Lemma filter_long_audio_idempotent_witness :
  filter_long_audio Demo.lib Demo.self [Demo.sample_b; Demo.sample_b] =
    ok [Demo.sample_b] ∧
  filter_long_audio Demo.lib Demo.self [Demo.sample_b] = ok [Demo.sample_b].
Proof.
  assert (H : filter_long_audio Demo.lib Demo.self
                [Demo.sample_b; Demo.sample_b] = ok [Demo.sample_b])
    by (vm_compute; reflexivity).
  split; [exact H|].
  exact (filter_long_audio_idempotent _ _ _ _ H).
Defined.

Lemma prepare_batch_of_survivors_witness :
  ∃ b σ',
    _prepare_batch Demo.lib Demo.self
      [Demo.sample_a; Demo.sample_b; Demo.sample_c] Demo.no_encoders =
      ok (b, σ') ∧
    _prepare_batch Demo.lib Demo.self [Demo.sample_a] Demo.no_encoders =
      ok (b, σ').
Proof.
  destruct (_prepare_batch Demo.lib Demo.self
              [Demo.sample_a; Demo.sample_b; Demo.sample_c] Demo.no_encoders)
    as [[b σ']|e] eqn:H; [|vm_compute in H; discriminate].
  destruct (surviving Demo.lib Demo.self
              [Demo.sample_a; Demo.sample_b; Demo.sample_c])
    as [[kept fbs]|e] eqn:Hs; [|vm_compute in Hs; discriminate].
  assert (Hk : kept = [Demo.sample_a]).
  { vm_compute in Hs. inversion Hs. reflexivity. }
  subst kept.
  exists b, σ'. split; [reflexivity|].
  exact (prepare_batch_of_survivors Demo.lib Demo.self _ [Demo.sample_a]
           _ _ _ _ _ H Hs eq_refl).
Defined.

Lemma surviving_sublist_witness :
  ∃ kept fbs,
    surviving Demo.lib Demo.self
      [Demo.sample_a; Demo.sample_b; Demo.sample_c] = ok (kept, fbs) ∧
    kept `sublist_of` [Demo.sample_a; Demo.sample_b; Demo.sample_c] ∧
    1 ≤ length kept ≤ 3.
Proof.
  destruct (surviving Demo.lib Demo.self
              [Demo.sample_a; Demo.sample_b; Demo.sample_c])
    as [[kept fbs]|e] eqn:Hs; [|vm_compute in Hs; discriminate].
  destruct (surviving_sublist _ _ _ _ _ Hs) as (samples & Hraw & Hsub & Hlen & _).
  exists kept, fbs. split; [reflexivity|].
  inversion Hraw; subst samples. split; [exact Hsub|exact Hlen].
Defined.

Lemma unreadable_audio_aborts_witness :
  torchaudio_load Demo.lib
    (audio_local_path (source DemoMore.sample_missing)) =
    raise (ExternalError "no such file") ∧
  (∀ b σ',
    _prepare_batch Demo.lib Demo.self [Demo.sample_a; DemoMore.sample_missing]
      Demo.no_encoders ≠ ok (b, σ')).
Proof.
  split; [reflexivity|].
  apply (unreadable_audio_aborts Demo.lib Demo.self _ _
           [Demo.sample_a; DemoMore.sample_missing] DemoMore.sample_missing
           (ExternalError "no such file")).
  - reflexivity.
  - apply list_elem_of_further, list_elem_of_here.
  - reflexivity.
Defined.

Lemma tokenized_texts_coherent_witness :
  ∃ texts σ',
    mapM (_get_tokenized_target_text Demo.self)
      [Demo.sample_a; Demo.sample_d] Demo.no_encoders = ok (texts, σ') ∧
    unit_encoders_per_lang σ' = unit_encoders_per_lang Demo.no_encoders ∧
    dom (text_encoders_per_lang σ') =
      dom (text_encoders_per_lang Demo.no_encoders) ∪
      list_to_set (map (fun s => lang (target s))
                     [Demo.sample_a; Demo.sample_d]).
Proof.
  destruct (mapM (_get_tokenized_target_text Demo.self)
              [Demo.sample_a; Demo.sample_d] Demo.no_encoders)
    as [[texts σ']|e] eqn:H; [|vm_compute in H; discriminate].
  destruct (tokenized_texts_coherent _ _ _ _ _ H) as (Hu & _ & Hd & _).
  exists texts, σ'. split; [reflexivity|]. split; assumption.
Defined.

Lemma tokenized_units_coherent_witness :
  ∃ ulr σ',
    mapM (_get_tokenized_units Demo.self)
      [Demo.sample_a; Demo.sample_e] Demo.no_encoders = ok (ulr, σ') ∧
    text_encoders_per_lang σ' = text_encoders_per_lang Demo.no_encoders ∧
    ulr !! 1 = Some None.
Proof.
  destruct (mapM (_get_tokenized_units Demo.self)
              [Demo.sample_a; Demo.sample_e] Demo.no_encoders)
    as [[ulr σ']|e] eqn:H; [|vm_compute in H; discriminate].
  destruct (tokenized_units_coherent _ _ _ _ _ H) as (Ht & _ & _ & Hall).
  exists ulr, σ'. split; [reflexivity|]. split; [exact Ht|].
  destruct (Forall2_lookup_l _ _ _ 1 Demo.sample_e Hall eq_refl)
    as (o & Ho & Hnone).
  cbn in Hnone. subst o. exact Ho.
Defined.

Lemma tokenized_texts_stable_witness :
  ∃ texts σ',
    mapM (_get_tokenized_target_text Demo.self)
      [Demo.sample_a; Demo.sample_d] Demo.no_encoders = ok (texts, σ') ∧
    mapM (_get_tokenized_target_text Demo.self)
      [Demo.sample_a; Demo.sample_d] σ' = ok (texts, σ').
Proof.
  destruct (mapM (_get_tokenized_target_text Demo.self)
              [Demo.sample_a; Demo.sample_d] Demo.no_encoders)
    as [[texts σ']|e] eqn:H; [|vm_compute in H; discriminate].
  exists texts, σ'. split; [reflexivity|].
  exact (tokenized_texts_stable _ _ _ _ _ H).
Defined.

Lemma prepare_batch_encoders_witness :
  ∃ b σ',
    _prepare_batch Demo.lib Demo.self [Demo.sample_a; Demo.sample_e]
      Demo.no_encoders = ok (b, σ') ∧
    text_encoders_per_lang Demo.no_encoders ⊆ text_encoders_per_lang σ' ∧
    unit_encoders_per_lang Demo.no_encoders ⊆ unit_encoders_per_lang σ'.
Proof.
  destruct (_prepare_batch Demo.lib Demo.self [Demo.sample_a; Demo.sample_e]
              Demo.no_encoders)
    as [[b σ']|e] eqn:H; [|vm_compute in H; discriminate].
  destruct (prepare_batch_encoders _ _ _ _ _ _ H)
    as (kept & fbs & _ & Ht & Hu & _).
  exists b, σ'. split; [reflexivity|]. split; assumption.
Defined.


Lemma converter_call_discipline_witness :
  ∃ m wav w,
    _get_source_fbank Demo.lib Demo.self Demo.sample_a = ok m ∧
    torchaudio_load Demo.lib (audio_local_path (source Demo.sample_a)) =
      ok (wav, 16000%Z) ∧
    channel_layout wav = ok w ∧
    length (shape w) = 2.
Proof.
  destruct (_get_source_fbank Demo.lib Demo.self Demo.sample_a)
    as [m|e] eqn:H; [|vm_compute in H; discriminate].
  destruct (converter_call_discipline _ _ _ _ H) as (wav & w & Hl & Hw & Hr & _).
  exists m, wav, w. split; [reflexivity|]. auto.
Defined.

Lemma wrong_sample_rate_aborts_witness :
  filter_long_audio DemoMore.lib Demo.self
    [Demo.sample_a; DemoMore.sample_8k] =
    ok [Demo.sample_a; DemoMore.sample_8k] ∧
  ∀ b σ',
    _prepare_batch DemoMore.lib Demo.self [Demo.sample_a; DemoMore.sample_8k]
      Demo.no_encoders ≠ ok (b, σ').
Proof.
  assert (Hlong : filter_long_audio DemoMore.lib Demo.self
                    [Demo.sample_a; DemoMore.sample_8k] =
                  ok [Demo.sample_a; DemoMore.sample_8k])
    by (vm_compute; reflexivity).
  split; [exact Hlong|].
  apply (wrong_sample_rate_aborts DemoMore.lib Demo.self _ _
           [Demo.sample_a; DemoMore.sample_8k]
           [Demo.sample_a; DemoMore.sample_8k] DemoMore.sample_8k
           (mkTensor [1; 2] [Demo.f32 1; Demo.f32 2]) 8000%Z).
  - reflexivity.
  - exact Hlong.
  - apply list_elem_of_further, list_elem_of_here.
  - reflexivity.
  - discriminate.
Defined.

Lemma filter_long_audio_total_witness :
  filter_long_audio Demo.lib Demo.self [] = raise IndexError ∧
  _prepare_batch Demo.lib Demo.self [] Demo.no_encoders = raise IndexError.
Proof.
  destruct (proj2 (filter_long_audio_total Demo.lib Demo.self []) eq_refl)
    as [H1 H2].
  split; [exact H1|]. apply H2. reflexivity.
Defined.

Lemma cached_encoder_is_used_witness :
  text_encoders_per_lang DemoMore.french_encoders !! lang (target Demo.sample_a) =
    Some (Demo.text_encoder "fra") ∧
  _get_tokenized_target_text DemoMore.no_builder Demo.sample_a
    DemoMore.french_encoders =
  _get_tokenized_target_text Demo.self Demo.sample_a DemoMore.french_encoders ∧
  _get_tokenized_target_text DemoMore.no_builder Demo.sample_a
    Demo.no_encoders = raise (ExternalError "no encoder").
Proof.
  split; [reflexivity|]. split; [|reflexivity].
  refine (proj1 (cached_encoder_is_used Demo.self DemoMore.no_builder
                   Demo.sample_a DemoMore.french_encoders
                   (Demo.text_encoder "fra") (Demo.unit_encoder "fra")
                   eq_refl eq_refl _ _)); reflexivity.
Defined.

Lemma channel_layout_invariants_witness :
  channel_layout
    (mkTensor [2; 3] (map Demo.f32 [1; 2; 3; 4; 5; 6]%Z)) =
    ok (mkTensor [3; 2] (map Demo.f32 [1; 4; 2; 5; 3; 6]%Z)) ∧
  channel_layout
    (mkTensor [3; 2] (map Demo.f32 [1; 4; 2; 5; 3; 6]%Z)) =
    ok (mkTensor [3; 2] (map Demo.f32 [1; 4; 2; 5; 3; 6]%Z)).
Proof.
  assert (H : channel_layout
                (mkTensor [2; 3] (map Demo.f32 [1; 2; 3; 4; 5; 6]%Z)) =
              ok (mkTensor [3; 2] (map Demo.f32 [1; 4; 2; 5; 3; 6]%Z)))
    by reflexivity.
  split; [exact H|].
  destruct (channel_layout_invariants _ _ H) as (_ & _ & _ & Hidem).
  apply (Hidem 3 2); [reflexivity|lia].
Defined.

Lemma eval_limit_is_laxer_witness :
  _is_long_src_audio Demo.lib
    (train_dataloader (text_tokenizer Demo.self) (unit_tokenizer Demo.self)
       5 0 1 "cuda") Demo.sample_b = ok false ∧
  _is_long_src_audio Demo.lib
    (eval_dataloader (text_tokenizer Demo.self) (unit_tokenizer Demo.self)
       5 0 1 "cuda") Demo.sample_b = ok false.
Proof.
  assert (H : _is_long_src_audio Demo.lib
                (train_dataloader (text_tokenizer Demo.self)
                   (unit_tokenizer Demo.self) 5 0 1 "cuda") Demo.sample_b =
              ok false) by (vm_compute; reflexivity).
  split; [exact H|].
  exact (proj1 (eval_limit_is_laxer _ _ _ _ _ _ _ _ H)).
Defined.
